(** * Bike-theft dashboard: the alert, comparison and ranking engines

    A shallow embedding of the three derived-data computations of the
    dashboard:

    - [recomputeAlerts] (src/utils/recomputeAlerts.js), the alert engine;
    - [deltaFeatures]   (src/App.jsx), the month-to-month comparison;
    - [rankedTopN]      (src/App.jsx), the top-10 selector.

    Around them the file embeds what feeds and reads them in the
    application: the month slices, the alert badge and the month selectors
    (src/App.jsx), the sliders (src/components), and the scale bar and the
    join of the records with the boundary file (DualMapPanel).

    JavaScript numbers are IEEE-754 binary64 values and are modelled by the
    primitive floats of the kernel, so every arithmetic step and every
    comparison below is the one the JavaScript engine performs.  Values that
    may be [null] or [undefined] are options; the source only ever tests them
    with [?? null], [!= null] and [!== null], which do not tell the two
    apart. *)

From Stdlib Require Import String Ascii List Bool Arith ZArith NArith Lia.
From Stdlib Require Import Floats Uint63 Sorted Permutation.
Import ListNotations.

Local Open Scope string_scope.
Local Open Scope list_scope.
Local Open Scope nat_scope.

(** ** JavaScript numbers *)

Definition number := float.

(** [ToNumber] of an array length. *)
Definition of_length (n : nat) : number :=
  PrimFloat.of_uint63 (Uint63.of_Z (Z.of_nat n)).

(** [x > y] on numbers: false as soon as one side is [NaN]. *)
Definition gt (x y : number) : bool := PrimFloat.ltb y x.

(** [Number.isNaN]. *)
Definition Number_isNaN (x : number) : bool := PrimFloat.is_nan x.

(** ** Array primitives *)

(** [arr.slice(start, end)] for [0 <= start]. *)
Definition slice {A} (start stop : nat) (arr : list A) : list A :=
  firstn (stop - start) (skipn start arr).

(** [arr.filter(v => v != null)] on an array of nullable values. *)
Fixpoint filter_non_null {A} (arr : list (option A)) : list A :=
  match arr with
  | [] => []
  | Some v :: rest => v :: filter_non_null rest
  | None :: rest => filter_non_null rest
  end.

(** [SortCompare]: the sign of the number a comparison callback returned,
    with [NaN] read as [+0]. *)
Definition SortCompare (v : number) : comparison :=
  if PrimFloat.ltb v 0%float then Lt
  else if PrimFloat.ltb 0%float v then Gt
  else Eq.

Section ArraySort.
Context {A : Type}.
Variable comparefn : A -> A -> comparison.

(** [insert_sorted x l] puts [x], which stood before every element of [l]
    in the array, in front of the first element it does not have to
    follow. *)
Fixpoint insert_sorted (x : A) (l : list A) : list A :=
  match l with
  | [] => [x]
  | y :: l' =>
      match comparefn x y with
      | Gt => y :: insert_sorted x l'
      | _ => x :: l
      end
  end.

(** [Array.prototype.sort] is a stable sort (ECMAScript 2019 onwards).
    For a comparison callback that is consistent on the elements of the
    array the language fixes the result completely: it is the one sorted
    arrangement that keeps tied elements in their original order, computed
    here by insertion from the right. *)
Fixpoint Array_sort (arr : list A) : list A :=
  match arr with
  | [] => []
  | x :: rest => insert_sorted x (Array_sort rest)
  end.
End ArraySort.

(** ** Data model *)

Inductive AlertLevel := none | watch | warning.

Definition AlertLevel_eqb (a b : AlertLevel) : bool :=
  match a, b with
  | none, none | watch, watch | warning, warning => true
  | _, _ => false
  end.

(** One area's metrics for one month, as read from [features.json]. *)
Record PanelRecord := {
  area_id        : string;
  area_name      : option string;
  month          : string;
  theft_count    : option number;
  exposure       : option number;
  risk_index     : option number;
  stability_flag : option bool
}.

(** [{...row, alert_spike, alert_trend3, alert_level}]. *)
Record EnrichedRecord := {
  row          : PanelRecord;
  alert_spike  : bool;
  alert_trend3 : bool;
  alert_level  : AlertLevel
}.

(** ** recomputeAlerts *)

Definition BASELINE_WINDOW : nat := 6.
Definition MIN_PERIODS : nat := 3.

(** A [Map] from area identifiers to arrays, in insertion order. *)
Definition AreaMap := list (string * list PanelRecord).

(** One turn of the grouping loop:
    [if (!byArea.has(f.area_id)) byArea.set(f.area_id, []);
     byArea.get(f.area_id).push(f)]. *)
Fixpoint byArea_push (byArea : AreaMap) (f : PanelRecord) : AreaMap :=
  match byArea with
  | [] => [(area_id f, [f])]
  | (k, rows) :: rest =>
      if String.eqb k (area_id f) then (k, rows ++ [f]) :: rest
      else (k, rows) :: byArea_push rest f
  end.

Definition group_by_area (features : list PanelRecord) : AreaMap :=
  fold_left byArea_push features [].

(** [sorted.slice(Math.max(0, t - BASELINE_WINDOW), t)
          .map(r => r.risk_index).filter(v => v != null)]. *)
Definition history (sorted : list PanelRecord) (t : nat) : list number :=
  let start := Z.to_nat (Z.max 0 (Z.of_nat t - Z.of_nat BASELINE_WINDOW)) in
  filter_non_null (map risk_index (slice start t sorted)).

(** [history.reduce((s, v) => s + v, 0) / history.length], or [null]. *)
Definition baseline (history : list number) : option number :=
  if MIN_PERIODS <=? length history
  then Some (fold_left PrimFloat.add history 0%float / of_length (length history))%float
  else None.

Definition alertSpike (baseline ri : option number) (threshold : number) : bool :=
  match baseline, ri with
  | Some b, Some r => gt r (b * (1 + threshold))%float
  | _, _ => false
  end.

(** [t >= k ? (sorted[t - k].risk_index ?? null) : null]. *)
Definition riPrev (sorted : list PanelRecord) (t k : nat) : option number :=
  if k <=? t then
    match nth_error sorted (t - k) with
    | Some r => risk_index r
    | None => None
    end
  else None.

Definition alertTrend3 (ri riPrev1 riPrev2 : option number) : bool :=
  match ri, riPrev1, riPrev2 with
  | Some r, Some p1, Some p2 => gt r p1 && gt p1 p2
  | _, _, _ => false
  end.

Definition alertLevel (spike trend3 : bool) : AlertLevel :=
  let n := ((if spike then 1 else 0) + (if trend3 then 1 else 0))%nat in
  if n =? 0 then none else if n =? 1 then watch else warning.

(** The body of the inner loop at index [t], where [row] is [sorted[t]]. *)
Definition enrich (sorted : list PanelRecord) (threshold : number)
    (t : nat) (row : PanelRecord) : EnrichedRecord :=
  let ri := risk_index row in
  let spike := alertSpike (baseline (history sorted t)) ri threshold in
  let trend3 := alertTrend3 ri (riPrev sorted t 1) (riPrev sorted t 2) in
  {| row := row;
     alert_spike := spike;
     alert_trend3 := trend3;
     alert_level := alertLevel spike trend3 |}.

(** [for (let t = t0; t < sorted.length; t++)], with [rest] the elements of
    [sorted] from index [t0] on. *)
Fixpoint enrich_from (sorted : list PanelRecord) (threshold : number)
    (t0 : nat) (rest : list PanelRecord) : list EnrichedRecord :=
  match rest with
  | [] => []
  | row :: rest' =>
      enrich sorted threshold t0 row :: enrich_from sorted threshold (S t0) rest'
  end.

Definition enrich_group (threshold : number) (sorted : list PanelRecord)
    : list EnrichedRecord :=
  enrich_from sorted threshold 0 sorted.

(** ** Plain objects used as dictionaries, and [Set] *)

Section JSObjects.
Context {V : Type}.

(** The own properties of an object, in creation order. *)
Definition JSObject := list (string * V).

(** [CreateDataProperty]: an existing key keeps its place and takes the
    new value. *)
Fixpoint CreateDataProperty (o : JSObject) (k : string) (v : V) : JSObject :=
  match o with
  | [] => [(k, v)]
  | (k', v') :: o' =>
      if String.eqb k' k then (k', v) :: o'
      else (k', v') :: CreateDataProperty o' k v
  end.

Definition Object_fromEntries (entries : list (string * V)) : JSObject :=
  fold_left (fun o kv => CreateDataProperty o (fst kv) (snd kv)) entries [].

(** [o[k]], [None] being [undefined].  The properties [Object.prototype]
    would supply for a missing key carry none of the fields read by
    [deltaFeatures], so they read like the empty object. *)
Fixpoint Get (o : JSObject) (k : string) : option V :=
  match o with
  | [] => None
  | (k', v) :: o' => if String.eqb k' k then Some v else Get o' k
  end.
End JSObjects.
Arguments JSObject : clear implicits.

Definition is_digit (c : ascii) : bool :=
  let n := N_of_ascii c in (48 <=? n)%N && (n <=? 57)%N.

Fixpoint digits_value (s : string) (acc : N) : option N :=
  match s with
  | EmptyString => Some acc
  | String c s' =>
      if is_digit c then digits_value s' (10 * acc + (N_of_ascii c - 48))%N
      else None
  end.

(** A property key is an array index when it is the canonical decimal
    rendering of an integer below [2^32 - 1]. *)
Definition array_index (k : string) : option N :=
  match k with
  | EmptyString => None
  | String c rest =>
      if Ascii.eqb c "0" && negb (String.eqb rest "") then None
      else match digits_value k 0 with
           | Some n => if (n <? 4294967295)%N then Some n else None
           | None => None
           end
  end.

Fixpoint index_keys (ks : list string) : list (string * N) :=
  match ks with
  | [] => []
  | k :: ks' =>
      match array_index k with
      | Some n => (k, n) :: index_keys ks'
      | None => index_keys ks'
      end
  end.

(** [Object.keys(o)]: array-index keys in ascending numeric order, then the
    other keys in creation order. *)
Definition Object_keys {V} (o : JSObject V) : list string :=
  let ks := map fst o in
  map fst (Array_sort (fun a b => N.compare (snd a) (snd b)) (index_keys ks))
  ++ filter (fun k => match array_index k with Some _ => false | None => true end) ks.

(** [new Set(values)], then [[...set]]: the distinct values in order of first
    insertion. *)
Definition Set_add (s : list string) (x : string) : list string :=
  if existsb (String.eqb x) s then s else s ++ [x].

Definition Set_of (values : list string) : list string :=
  fold_left Set_add values [].

(** [x ?? d]. *)
Definition nullish {A} (x : option A) (d : A) : A :=
  match x with
  | Some v => v
  | None => d
  end.
Notation "x ?? d" := (nullish x d) (at level 45, right associativity).

(** [o.f] where [o] may be the empty object [{}]. *)
Definition field {R A} (o : option R) (f : R -> option A) : option A :=
  match o with
  | Some r => f r
  | None => None
  end.

Module Delta.
(** The comparison of one area between month A and month B. *)
Record DeltaRecord := {
  area_id          : string;
  area_name        : string;
  delta_risk_index : option number;
  delta_count      : number;
  risk_index_a     : option number;
  risk_index_b     : option number;
  theft_count_a    : number;
  theft_count_b    : number;
  alert_level      : AlertLevel;
  stability_flag   : bool
}.
End Delta.

Section Engines.

(** [a.localeCompare(b)], of which only the sign is observed.  The result
    depends on the collation of the host, so it is left open here. *)
Variable localeCompare : string -> string -> comparison.

Definition by_month (a b : PanelRecord) : comparison :=
  localeCompare (month a) (month b).

(** The time-sorted group of each area, areas in insertion order. *)
Definition sorted_groups (features : list PanelRecord) : list (list PanelRecord) :=
  map (fun kv => Array_sort by_month (snd kv)) (group_by_area features).

(** [features] is [None] when the caller passes [null] or [undefined]. *)
Definition recomputeAlerts (features : option (list PanelRecord))
    (threshold : number) : list EnrichedRecord :=
  match features with
  | None => []
  | Some [] => []
  | Some fs => flat_map (enrich_group threshold) (sorted_groups fs)
  end.

(** ** deltaFeatures *)

(** [x => +x.toFixed(4)]: the decimal rendering of a number with four
    fraction digits, read back as a number. *)
Variable toFixed4 : number -> number.

(** [Object.fromEntries(recomputedFeatures.filter(f => f.month === m)
                                          .map(f => [f.area_id, f]))]. *)
Definition byArea (recomputedFeatures : list EnrichedRecord) (m : string)
    : JSObject EnrichedRecord :=
  Object_fromEntries
    (map (fun f => (area_id (row f), f))
         (filter (fun f => String.eqb (month (row f)) m) recomputedFeatures)).

(** The callback of [[...allIds].map]; [a] and [b] are [aMap[id]] and
    [bMap[id]], a missing one standing for the empty object [{}]. *)
Definition delta_record (aMap bMap : JSObject EnrichedRecord) (id : string)
    : Delta.DeltaRecord :=
  let a := Get aMap id in
  let b := Get bMap id in
  let riA := field a (fun r => risk_index (row r)) in
  let riB := field b (fun r => risk_index (row r)) in
  let countA := field a (fun r => theft_count (row r)) ?? 0%float in
  let countB := field b (fun r => theft_count (row r)) ?? 0%float in
  {| Delta.area_id := id;
     Delta.area_name :=
       field a (fun r => area_name (row r)) ??
         (field b (fun r => area_name (row r)) ?? "");
     Delta.delta_risk_index :=
       match riA, riB with
       | Some x, Some y => Some (toFixed4 (y - x)%float)
       | _, _ => None
       end;
     Delta.delta_count := (countB - countA)%float;
     Delta.risk_index_a := riA;
     Delta.risk_index_b := riB;
     Delta.theft_count_a := countA;
     Delta.theft_count_b := countB;
     Delta.alert_level := field b (fun r => Some (alert_level r)) ?? none;
     Delta.stability_flag := field b (fun r => stability_flag (row r)) ?? false |}.

(** [recomputedFeatures] is [None] for [null] or [undefined]; a month is
    falsy exactly when it is the empty string. *)
Definition deltaFeatures (recomputedFeatures : option (list EnrichedRecord))
    (monthA monthB : string) : list Delta.DeltaRecord :=
  match recomputedFeatures with
  | None => []
  | Some rf =>
      if String.eqb monthA "" || String.eqb monthB "" || String.eqb monthA monthB
      then []
      else
        let aMap := byArea rf monthA in
        let bMap := byArea rf monthB in
        let allIds := Set_of (Object_keys aMap ++ Object_keys bMap) in
        map (delta_record aMap bMap) allIds
  end.

End Engines.

(** ** rankedTopN *)

(** What the selector reads from a record: [f[metric]] for the name of a
    numeric field and [f.alert_level].  Both record kinds of the dashboard
    provide them.  The dashboard ranks by ['risk_index'], ['theft_count'] or
    ['delta_risk_index']; a name that is not one of the numeric fields of
    the record reads as [undefined]. *)
Class Ranked (R : Type) := {
  get_metric : R -> string -> option number;
  get_alert_level : R -> option AlertLevel
}.

#[export] Instance Ranked_EnrichedRecord : Ranked EnrichedRecord := {
  get_metric f metric :=
    if String.eqb metric "risk_index" then risk_index (row f)
    else if String.eqb metric "theft_count" then theft_count (row f)
    else if String.eqb metric "exposure" then exposure (row f)
    else None;
  get_alert_level f := Some (alert_level f)
}.

#[export] Instance Ranked_DeltaRecord : Ranked Delta.DeltaRecord := {
  get_metric f metric :=
    if String.eqb metric "delta_risk_index" then Delta.delta_risk_index f
    else if String.eqb metric "delta_count" then Some (Delta.delta_count f)
    else if String.eqb metric "risk_index_a" then Delta.risk_index_a f
    else if String.eqb metric "risk_index_b" then Delta.risk_index_b f
    else if String.eqb metric "theft_count_a" then Some (Delta.theft_count_a f)
    else if String.eqb metric "theft_count_b" then Some (Delta.theft_count_b f)
    else None;
  get_alert_level f := Some (Delta.alert_level f)
}.

Section RankingSelector.
Context {R : Type} `{Ranked R}.
Variable metric : string.
Variable filterAlertsOnly : bool.

(** [f[metric] != null && !Number.isNaN(f[metric])]. *)
Definition has_metric (f : R) : bool :=
  match get_metric f metric with
  | Some v => negb (Number_isNaN v)
  | None => false
  end.

(** [f.alert_level && f.alert_level !== 'none']. *)
Definition is_alert (f : R) : bool :=
  match get_alert_level f with
  | Some lvl => negb (AlertLevel_eqb lvl none)
  | None => false
  end.

(** [!filterAlertsOnly || (f.alert_level && f.alert_level !== 'none')]. *)
Definition passes_alert_filter (f : R) : bool :=
  negb filterAlertsOnly || is_alert f.

(** [(a, b) => (b[metric] ?? -Infinity) - (a[metric] ?? -Infinity)],
    through [SortCompare]. *)
Definition by_metric_desc (a b : R) : comparison :=
  SortCompare ((get_metric b metric ?? neg_infinity)
               - (get_metric a metric ?? neg_infinity))%float.

Definition rankedTopN (source : list R) : list R :=
  slice 0 10
    (Array_sort by_metric_desc
       (filter passes_alert_filter (filter has_metric source))).

End RankingSelector.

(** ** Arrays as mutable objects *)

Section Heap.
Context {T : Type}.

(** The arrays allocated so far; a reference is a position in the heap. *)
Definition heap := list T.
Definition ref := nat.

(** A computation that reads and writes the heap and may get stuck. *)
Definition M (A : Type) : Type := heap -> option (A * heap).

Definition ret {A} (x : A) : M A := fun h => Some (x, h).

Definition bind {A B} (c : M A) (k : A -> M B) : M B :=
  fun h => match c h with
           | Some (x, h') => k x h'
           | None => None
           end.

Definition stuck {A} : M A := fun _ => None.

(** A new array: [[]], [[...a]], [a.filter(p)], [a.slice(i, j)]. *)
Definition alloc (v : T) : M ref := fun h => Some (length h, h ++ [v]).

Definition load (r : ref) : M T :=
  fun h => match nth_error h r with
           | Some v => Some (v, h)
           | None => None
           end.

(** An update in place: [a.push(x)], [a.sort(f)]. *)
Definition store (r : ref) (v : T) : M unit :=
  fun h => if r <? length h
           then Some (tt, firstn r h ++ v :: skipn (S r) h)
           else None.

(** [for (const x of xs) body(x)]. *)
Fixpoint for_of {X} (xs : list X) (body : X -> M unit) : M unit :=
  match xs with
  | [] => ret tt
  | x :: xs' => bind (body x) (fun _ => for_of xs' body)
  end.

(** A loop that threads a local variable through its turns. *)
Fixpoint for_of_with {X S} (xs : list X) (s : S) (body : S -> X -> M S) : M S :=
  match xs with
  | [] => ret s
  | x :: xs' => bind (body s x) (fun s' => for_of_with xs' s' body)
  end.
End Heap.
Arguments heap : clear implicits.
Arguments M : clear implicits.

Notation "x <- c ;; k" := (bind c (fun x => k))
  (at level 61, c at next level, right associativity).
Notation "c ;;; k" := (bind c (fun _ => k))
  (at level 61, right associativity).

(** *** recomputeAlerts on the heap *)

(** The arrays the alert engine touches hold panel records or enriched
    records. *)
Inductive array :=
  | PanelArray (rows : list PanelRecord)
  | EnrichedArray (rows : list EnrichedRecord).

Definition load_panel (r : ref) : M array (list PanelRecord) :=
  a <- load r ;;
  match a with
  | PanelArray rows => ret rows
  | EnrichedArray _ => stuck
  end.

Definition load_enriched (r : ref) : M array (list EnrichedRecord) :=
  a <- load r ;;
  match a with
  | EnrichedArray rows => ret rows
  | PanelArray _ => stuck
  end.

(** [rows.push(f)]. *)
Definition push_panel (r : ref) (f : PanelRecord) : M array unit :=
  rows <- load_panel r ;; store r (PanelArray (rows ++ [f])).

(** [result.push(e)]. *)
Definition push_enriched (r : ref) (e : EnrichedRecord) : M array unit :=
  rows <- load_enriched r ;; store r (EnrichedArray (rows ++ [e])).

(** The [Map] of the engine holds references to the per-area arrays. *)
Definition RefMap := list (string * ref).

Fixpoint Map_get (m : RefMap) (k : string) : option ref :=
  match m with
  | [] => None
  | (k', r) :: m' => if String.eqb k' k then Some r else Map_get m' k
  end.

Definition Map_has (m : RefMap) (k : string) : bool :=
  match Map_get m k with Some _ => true | None => false end.

(** One turn of the grouping loop. *)
Definition group_turn (byArea : RefMap) (f : PanelRecord) : M array RefMap :=
  byArea' <- (if Map_has byArea (area_id f) then ret byArea
              else r <- alloc (PanelArray []) ;; ret (byArea ++ [(area_id f, r)])) ;;
  match Map_get byArea' (area_id f) with
  | Some r => push_panel r f ;;; ret byArea'
  | None => stuck
  end.

Section HeapEngines.
Variable localeCompare : string -> string -> comparison.

(** One turn of the outer loop: [rows] is copied, the copy is sorted in
    place, and one enriched record per position is pushed on [result]. *)
Definition area_turn (threshold : number) (result : ref) (kv : string * ref)
    : M array unit :=
  rows <- load_panel (snd kv) ;;
  sorted_ref <- alloc (PanelArray rows) ;;
  copy <- load_panel sorted_ref ;;
  store sorted_ref (PanelArray (Array_sort (by_month localeCompare) copy)) ;;;
  sorted <- load_panel sorted_ref ;;
  for_of (enrich_group threshold sorted) (push_enriched result).

(** The engine as it runs: [features] is a reference to the caller's
    array, or [None] for [null] and [undefined]; the result is a reference
    to the returned array. *)
Definition recomputeAlerts_run (features : option ref) (threshold : number)
    : M array ref :=
  match features with
  | None => alloc (EnrichedArray [])
  | Some fr =>
      fs <- load_panel fr ;;
      if length fs =? 0 then ret fr
      else
        byArea <- for_of_with fs [] group_turn ;;
        result <- alloc (EnrichedArray []) ;;
        for_of byArea (area_turn threshold result) ;;;
        ret result
  end.
End HeapEngines.

(** *** rankedTopN on the heap *)

Section HeapRanking.
Context {R : Type} `{Ranked R}.
Variable metric : string.
Variable filterAlertsOnly : bool.

(** [[...source].filter(..).filter(..).sort(..).slice(0, 10)]: the spread,
    the filters and the slice each make a new array; [sort] works in place
    on the array it is called on and returns it. *)
Definition rankedTopN_run (source : ref) : M (list R) ref :=
  src <- load source ;;
  copy <- alloc src ;;
  a1 <- load copy ;;
  with_metric <- alloc (filter (has_metric metric) a1) ;;
  a2 <- load with_metric ;;
  kept <- alloc (filter (passes_alert_filter filterAlertsOnly) a2) ;;
  a3 <- load kept ;;
  store kept (Array_sort (by_metric_desc metric) a3) ;;;
  a4 <- load kept ;;
  alloc (slice 0 10 a4).
End HeapRanking.

(** * Specification vocabulary *)

(** ** Sorting *)

Section ArraySortSpec.
Context {A : Type}.
Variable comparefn : A -> A -> comparison.

(** A comparison callback is consistent on an array when, on its elements,
    swapping the arguments flips the sign and "does not come after" is
    transitive: the condition under which the language defines the result
    of [sort]. *)
Definition consistent_on (l : list A) : Prop :=
  (forall x y, In x l -> In y l -> comparefn y x = CompOpp (comparefn x y)) /\
  (forall x y z, In x l -> In y l -> In z l ->
     comparefn x y <> Gt -> comparefn y z <> Gt -> comparefn x z <> Gt).

Definition is_Gt (c : comparison) : bool :=
  match c with Gt => true | _ => false end.

Definition comparison_eqb (c d : comparison) : bool :=
  match c, d with
  | Lt, Lt | Eq, Eq | Gt, Gt => true
  | _, _ => false
  end.

(** The same condition as a test. *)
Definition consistentb (l : list A) : bool :=
  forallb (fun x =>
    forallb (fun y =>
      comparison_eqb (comparefn y x) (CompOpp (comparefn x y)) &&
      forallb (fun z =>
        is_Gt (comparefn x y) || is_Gt (comparefn y z)
        || negb (is_Gt (comparefn x z))) l) l) l.

(** [x] does not come after [y]. *)
Definition not_after (x y : A) : Prop := comparefn x y <> Gt.

(** [y] ties with [x]. *)
Definition tied (x y : A) : bool :=
  match comparefn x y with Eq => true | _ => false end.
End ArraySortSpec.

(** ** Grouping by area *)

(** The distinct values of a list, in order of first appearance. *)
Fixpoint first_appearances (l : list string) : list string :=
  match l with
  | [] => []
  | x :: l' => x :: filter (fun y => negb (String.eqb y x)) (first_appearances l')
  end.

(** The input records of one area, in input order. *)
Definition of_area (a : string) (f : PanelRecord) : bool :=
  String.eqb (area_id f) a.

(** The output records of one area, in output order: the area's group. *)
Definition area_group (out : list EnrichedRecord) (a : string)
    : list EnrichedRecord :=
  filter (fun e => String.eqb (area_id (row e)) a) out.

(** The map the grouping loop builds, written out. *)
Definition groups_of (features : list PanelRecord) : AreaMap :=
  map (fun a => (a, filter (of_area a) features))
      (first_appearances (map area_id features)).

Section SortedRows.
Variable localeCompare : string -> string -> comparison.

(** The records of one area, time-sorted as the engine sorts them. *)
Definition sorted_rows (features : list PanelRecord) (a : string)
    : list PanelRecord :=
  Array_sort (by_month localeCompare) (filter (of_area a) features).

End SortedRows.

(** ** The alert engine *)

(** The up-to-[n] elements that immediately precede position [t]. *)
Definition preceding {A} (n t : nat) (l : list A) : list A :=
  skipn (t - n) (firstn t l).

(** The risk values that are present, in order. *)
Definition defined_risks (records : list PanelRecord) : list number :=
  flat_map (fun r => match risk_index r with Some v => [v] | None => [] end)
           records.

(** The arithmetic mean as the engine accumulates it: the values are added
    left to right, starting from zero, and the sum is divided by their
    number. *)
Definition mean (values : list number) : number :=
  (fold_left PrimFloat.add values 0 / of_length (length values))%float.

(** The risk value of the record at a position of a group, if any. *)
Definition risk_at (group : list EnrichedRecord) (i : nat) : option number :=
  match nth_error group i with
  | Some e => risk_index (row e)
  | None => None
  end.

(** ** The comparison engine *)

(** The record of an area at a month: the last one, should the array hold
    several. *)
Definition record_at (rf : list EnrichedRecord) (m id : string)
    : option EnrichedRecord :=
  find (fun f => String.eqb (month (row f)) m && String.eqb (area_id (row f)) id)
       (rev rf).

(** The area has a record at the month. *)
Definition present (rf : list EnrichedRecord) (m id : string) : Prop :=
  exists f, In f rf /\ month (row f) = m /\ area_id (row f) = id.

(** The risk value of one side of a comparison, missing when the side is. *)
Definition risk_of (side : option EnrichedRecord) : option number :=
  match side with
  | Some r => risk_index (row r)
  | None => None
  end.

(** The theft count of one side of a comparison, zero when missing. *)
Definition count_or_0 (side : option EnrichedRecord) : number :=
  match side with
  | Some r => match theft_count (row r) with Some c => c | None => 0%float end
  | None => 0%float
  end.

(** ** The ranking selector *)

Section RankingSpec.
Context {R : Type} `{Ranked R}.
Variable metric : string.
Variable filterAlertsOnly : bool.

(** What the selector keeps of an array before it sorts. *)
Definition kept_by (f : R) : bool :=
  has_metric metric f && passes_alert_filter filterAlertsOnly f.

(** [f] may stand before [g] in a descending order: both have a metric
    value and that of [g] is not greater. *)
Definition metric_desc (f g : R) : Prop :=
  exists x y, get_metric f metric = Some x /\ get_metric g metric = Some y /\
              PrimFloat.leb y x = true.

(** [g] has the same metric value as [f]. *)
Definition same_metric (f g : R) : bool :=
  match get_metric f metric, get_metric g metric with
  | Some x, Some y => PrimFloat.eqb x y
  | _, _ => false
  end.

End RankingSpec.

(** ** The heap *)

(** The cells and the references of the per-area arrays, allocated one after
    the other from position [base] on. *)
Definition cells_of (m : AreaMap) : heap array :=
  map (fun kv => PanelArray (snd kv)) m.

Definition refs_of (base : nat) (m : AreaMap) : RefMap :=
  combine (map fst m) (seq base (length m)).

(** What the caller passed: no array, or a reference to an array of panel
    records. *)
Definition points_to (h : heap array) (features : option ref)
    (contents : option (list PanelRecord)) : Prop :=
  match features, contents with
  | None, None => True
  | Some fr, Some fs => nth_error h fr = Some (PanelArray fs)
  | _, _ => False
  end.

(** An array read as an array of enriched records; the empty array is one
    whatever it was created for. *)
Definition enriched_view (h : heap array) (r : ref) : option (list EnrichedRecord) :=
  match nth_error h r with
  | Some (EnrichedArray rows) => Some rows
  | Some (PanelArray []) => Some []
  | _ => None
  end.

(** ** The order of binary64 values *)

Section FloatPositions.
Local Open Scope Z_scope.

(** The position of a binary64 value on the integer line, in units of the
    smallest subnormal; the infinities lie beyond every finite value. *)
Definition SFrank (x : spec_float) : Z :=
  match x with
  | S754_zero _ => 0
  | S754_infinity s => cond_Zopp s (2 ^ 2100)
  | S754_nan => 0
  | S754_finite s m e => cond_Zopp s (Zpos m * 2 ^ (e + 1074))
  end.

Definition SFis_nan (x : spec_float) : bool :=
  match x with S754_nan => true | _ => false end.

(** The sign of a value: [-1], [0] or [1]; [NaN] counts as [0]. *)
Definition SFsign (x : spec_float) : Z :=
  match x with
  | S754_zero _ | S754_nan => 0
  | S754_infinity s | S754_finite s _ _ => if s then -1 else 1
  end.

Definition rank (x : float) : Z := SFrank (Prim2SF x).

End FloatPositions.

(** ** A sample panel *)

(** The number an integer below [2^53] denotes. *)
Definition of_Z_exact (n : Z) : number :=
  PrimFloat.of_uint63 (Uint63.of_Z n).

(** [+x.toFixed(4)] on binary64 values.  Below [2^39] the value is scaled
    by [10^4] and rounded to the nearest integer, a half going away from
    zero, in exact arithmetic; that integer is below [2^53], so dividing it
    by [10^4] gives the number nearest to the decimal rendering.  From
    [2^39] on two neighbouring values are more than [10^-4] apart and the
    rendering reads back as the value itself; [NaN] and the infinities are
    rendered by name. *)
Definition toFixed4_binary64 (x : number) : number :=
  match Prim2SF x with
  | S754_finite s m e =>
      if PrimFloat.leb 549755813888%float (PrimFloat.abs x) then x
      else
        let scaled := (Zpos m * 10000)%Z in
        let n := if (0 <=? e)%Z then (scaled * 2 ^ e)%Z
                 else ((2 * scaled + 2 ^ (- e)) / 2 ^ (1 - e))%Z in
        let r := (of_Z_exact n / 10000)%float in
        if s then (- r)%float else r
  | S754_zero _ => 0%float
  | _ => x
  end.

Definition sample_record (a name m : string) (count : number)
    (ri : option number) : PanelRecord :=
  {| area_id := a; area_name := Some name; month := m;
     theft_count := Some count; exposure := Some 100%float;
     risk_index := ri; stability_flag := Some true |}.

Definition city (m : string) (count : number) (ri : option number) : PanelRecord :=
  sample_record "E09000001" "City of London" m count ri.

Definition camden (m : string) (count : number) (ri : option number) : PanelRecord :=
  sample_record "E09000007" "Camden" m count ri.

(** Two boroughs, the months of the first out of order, one month of the
    second without a risk value. *)
Definition sample_features : list PanelRecord :=
  [ city "2024-07" 30%float (Some 3%float);
    camden "2024-01" 6%float (Some 0.75%float);
    city "2024-01" 10%float (Some 1%float);
    city "2024-02" 10%float (Some 1%float);
    camden "2024-02" 8%float (Some 1%float);
    city "2024-03" 10%float (Some 1%float);
    camden "2024-03" 10%float (Some 1.25%float);
    city "2024-04" 10%float (Some 1%float);
    city "2024-05" 10%float (Some 1%float);
    camden "2024-04" 0%float None;
    city "2024-06" 10%float (Some 1%float) ].

(** Months in the form [YYYY-MM] are compared by [localeCompare] as they are
    character by character. *)
Definition sample_enriched : list EnrichedRecord :=
  recomputeAlerts String.compare (Some sample_features) 0.5%float.

Definition sample_spike : EnrichedRecord :=
  {| row := city "2024-07" 30%float (Some 3%float);
     alert_spike := true; alert_trend3 := false; alert_level := watch |}.

Definition sample_trend : EnrichedRecord :=
  {| row := camden "2024-03" 10%float (Some 1.25%float);
     alert_spike := false; alert_trend3 := true; alert_level := watch |}.

Definition sample_first : EnrichedRecord :=
  {| row := camden "2024-01" 6%float (Some 0.75%float);
     alert_spike := false; alert_trend3 := false; alert_level := none |}.

(** * The rest of the dashboard *)

(** ** Month slices and the alert badge *)

(** [recomputedFeatures.filter(f => f.month === m)] behind the guard
    [!recomputedFeatures || !m]: the body that [currentFeatures],
    [featuresA] and [featuresB] share. *)
Definition month_slice (recomputedFeatures : option (list EnrichedRecord))
    (m : string) : list EnrichedRecord :=
  match recomputedFeatures with
  | None => []
  | Some rf =>
      if String.eqb m "" then []
      else filter (fun f => String.eqb (month (row f)) m) rf
  end.

Definition currentFeatures (recomputedFeatures : option (list EnrichedRecord))
    (currentMonth : string) : list EnrichedRecord :=
  month_slice recomputedFeatures currentMonth.

Definition featuresA (recomputedFeatures : option (list EnrichedRecord))
    (monthA : string) : list EnrichedRecord :=
  month_slice recomputedFeatures monthA.

Definition featuresB (recomputedFeatures : option (list EnrichedRecord))
    (monthB : string) : list EnrichedRecord :=
  month_slice recomputedFeatures monthB.

(** [source.filter(f => f.alert_level && f.alert_level !== 'none').length],
    where [source] is [deltaFeatures] in month-comparison mode and
    [currentFeatures] otherwise. *)
Definition alertCount {R} `{Ranked R} (source : list R) : nat :=
  length (filter is_alert source).

(** ** The month selectors *)

Module Selection.
(** The month state of the application: [monthIndex], [monthA] and
    [monthB]; a month is [None] when it was set to [undefined]. *)
Record t := {
  monthIndex : nat;
  monthA     : option string;
  monthB     : option string
}.
End Selection.

(** [useState(0)], [useState('')], [useState('')]. *)
Definition initial_selection : Selection.t :=
  {| Selection.monthIndex := 0;
     Selection.monthA := Some "";
     Selection.monthB := Some "" |}.

(** The effect that runs once [meta] has loaded; [months] is [meta.months],
    [None] when [meta] or its [months] is missing:
    [if (!meta?.months?.length) return;
     setMonthIndex(months.length - 1);
     setMonthA(months[Math.max(0, months.length - 7)]);
     setMonthB(months[months.length - 1])]. *)
Definition initialise_months (months : option (list string))
    (s : Selection.t) : Selection.t :=
  match months with
  | None | Some [] => s
  | Some months =>
      {| Selection.monthIndex := length months - 1;
         Selection.monthA :=
           nth_error months (Z.to_nat (Z.max 0 (Z.of_nat (length months) - 7)));
         Selection.monthB := nth_error months (length months - 1) |}
  end.

(** [meta?.months[monthIndex] ?? '']. *)
Definition currentMonth (months : option (list string)) (monthIndex : nat)
    : string :=
  match months with
  | None => ""
  | Some months => nth_error months monthIndex ?? ""
  end.

(** [months.indexOf(x)]: the first position of [x], or [-1]. *)
Fixpoint indexOf (months : list string) (x : string) : Z :=
  match months with
  | [] => (-1)%Z
  | m :: months' =>
      if String.eqb m x then 0%Z
      else let i := indexOf months' x in
           if (i <? 0)%Z then (-1)%Z else (i + 1)%Z
  end.

(** [Math.max(0, months.indexOf(monthA))], the position of thumb A of the
    two-thumb slider; a month that is [undefined] is found nowhere. *)
Definition idxA (months : list string) (monthA : option string) : nat :=
  Z.to_nat (Z.max 0 (match monthA with
                     | Some m => indexOf months m
                     | None => (-1)%Z
                     end)).

(** [Math.max(0, months.indexOf(monthB))], the position of thumb B. *)
Definition idxB (months : list string) (monthB : option string) : nat :=
  Z.to_nat (Z.max 0 (match monthB with
                     | Some m => indexOf months m
                     | None => (-1)%Z
                     end)).

(** [onChangeA(months[+e.target.value])] and its like for B: the slider
    hands over the month at the position of the thumb. *)
Definition onChangeA (months : list string) (value : nat) (s : Selection.t)
    : Selection.t :=
  {| Selection.monthIndex := Selection.monthIndex s;
     Selection.monthA := nth_error months value;
     Selection.monthB := Selection.monthB s |}.

Definition onChangeB (months : list string) (value : nat) (s : Selection.t)
    : Selection.t :=
  {| Selection.monthIndex := Selection.monthIndex s;
     Selection.monthA := Selection.monthA s;
     Selection.monthB := nth_error months value |}.

(** ** The threshold slider *)

(** [Math.round]: the integer nearest to [x], a half going up.  A finite
    value with a fraction part is [m * 2^e] with [e < 0] and lies below
    [2^53]; the floor of [x + 1/2] is taken in exact arithmetic.  A result
    of zero keeps the sign of [x]. *)
Definition Math_round (x : number) : number :=
  match Prim2SF x with
  | S754_finite s m e =>
      if (0 <=? e)%Z then x
      else
        let n := ((2 * cond_Zopp s (Zpos m) + 2 ^ (- e)) / 2 ^ (1 - e))%Z in
        if (n <? 0)%Z then (- of_Z_exact (- n))%float
        else if (n =? 0)%Z then (if s then (- 0)%float else 0%float)
        else of_Z_exact n
  | _ => x
  end.

(** [Math.round(alertThreshold * 100)], the percentage the panel shows and
    hands to the slider as its value. *)
Definition pct (alertThreshold : number) : number :=
  Math_round (alertThreshold * 100)%float.

(** [e => setAlertThreshold(+e.target.value / 100)]: the slider reports its
    position as the decimal rendering of an integer. *)
Definition onChange_threshold (value : Z) : number :=
  (of_Z_exact value / 100)%float.

(** ** The scale bar *)

Definition steps : list number :=
  [10; 20; 50; 100; 200; 500; 1000; 2000; 5000; 10000; 20000]%float.

(** [steps.find(s => s >= targetM) ?? steps[steps.length - 1]]. *)
Definition niceM (targetM : number) : number :=
  find (fun s => PrimFloat.leb targetM s) steps
  ?? nth (length steps - 1) steps nan.

(** [niceM >= 1000]: the label is in kilometres. *)
Definition label_in_km (targetM : number) : bool :=
  PrimFloat.leb 1000%float (niceM targetM).

(** ** The data behind the map *)

Section GeoJSON.
Context {V G : Type}.

(** [ToPropertyKey] of what [area_id] reads, [None] being [undefined]. *)
Variable ToPropertyKey : option V -> string.

(** A feature of the boundary file: its [properties] and its other
    members. *)
Record Feature := {
  properties : JSObject V;
  geometry   : G
}.

(** [{...target, ...source}]. *)
Definition spread (target source : JSObject V) : JSObject V :=
  fold_left (fun o kv => CreateDataProperty o (fst kv) (snd kv)) source target.

(** [areas] is the array of features of the boundary file and [rows] an
    array of records, each [None] when [null] or [undefined]:
    [if (!areas) return null;
     if (!rows?.length) return areas;
     const dataByArea = Object.fromEntries(rows.map(f => [f.area_id, f]));
     areas.features.map(f => ({...f, properties:
       {...f.properties, ...(dataByArea[f.properties.area_id] ?? {})}}))]. *)
Definition makeGeoJSON (areas : option (list Feature))
    (rows : option (list (JSObject V))) : option (list Feature) :=
  match areas with
  | None => None
  | Some features =>
      match rows with
      | None | Some [] => areas
      | Some rows =>
          let dataByArea :=
            Object_fromEntries
              (map (fun f => (ToPropertyKey (Get f "area_id"), f)) rows) in
          Some (map (fun f =>
                       {| properties :=
                            spread (properties f)
                              (Get dataByArea
                                   (ToPropertyKey (Get (properties f) "area_id"))
                               ?? []);
                          geometry := geometry f |})
                    features)
      end
  end.

(** The record the map shows for a feature: the last one of its area. *)
Definition row_of (rows : list (JSObject V)) (f : Feature)
    : option (JSObject V) :=
  find (fun r => String.eqb (ToPropertyKey (Get r "area_id"))
                            (ToPropertyKey (Get (properties f) "area_id")))
       (rev rows).

End GeoJSON.
Arguments Feature : clear implicits.

(** ** More samples *)

(** A panel that comes grouped by area, the months of each area in order. *)
Definition sample_grouped : list PanelRecord :=
  [ city "2024-01" 10%float (Some 1%float);
    city "2024-02" 12%float (Some 1.25%float);
    camden "2024-01" 6%float (Some 0.75%float);
    camden "2024-02" 8%float (Some 1%float) ].

(** The next month of the first borough. *)
Definition sample_next : PanelRecord :=
  city "2024-08" 12%float (Some 1.25%float).

(** Two boundaries and one record, with strings for values. *)
Definition sample_key (v : option string) : string := v ?? "undefined".

Definition sample_boundaries : list (Feature string nat) :=
  [ {| properties := [("area_id", "E09000001"); ("name", "City of London")];
       geometry := 1 |};
    {| properties := [("area_id", "E09000007"); ("name", "Camden")];
       geometry := 7 |} ].

Definition sample_rows : list (JSObject string) :=
  [ [("area_id", "E09000007"); ("month", "2024-03"); ("alert_level", "watch")] ].

(** * Properties *)

(** ** Sorting *)

Section ArraySortFacts.
Context {A : Type}.
Variable comparefn : A -> A -> comparison.

Lemma consistentb_sound (l : list A) :
  consistentb comparefn l = true -> consistent_on comparefn l.
Proof.
  unfold consistentb, consistent_on. rewrite forallb_forall. intros Hall. split.
  - intros x y Hx Hy. specialize (Hall x Hx). rewrite forallb_forall in Hall.
    specialize (Hall y Hy). apply andb_true_iff in Hall as [Hc _].
    destruct (comparefn y x), (comparefn x y); simpl in *; congruence.
  - intros x y z Hx Hy Hz Hxy Hyz. specialize (Hall x Hx).
    rewrite forallb_forall in Hall. specialize (Hall y Hy).
    apply andb_true_iff in Hall as [_ Ht]. rewrite forallb_forall in Ht.
    specialize (Ht z Hz).
    destruct (comparefn x y), (comparefn y z), (comparefn x z);
      simpl in Ht; congruence.
Qed.

Lemma consistent_on_incl (l l' : list A) :
  incl l' l -> consistent_on comparefn l -> consistent_on comparefn l'.
Proof.
  intros Hi [Ha Ht]. split.
  - intros x y Hx Hy. apply Ha; auto.
  - intros x y z Hx Hy Hz. apply Ht; auto.
Qed.

Lemma insert_sorted_perm (x : A) (l : list A) :
  Permutation (insert_sorted comparefn x l) (x :: l).
Proof.
  induction l as [|y l IH]; simpl.
  - apply Permutation_refl.
  - destruct (comparefn x y); try apply Permutation_refl.
    eapply perm_trans; [apply perm_skip, IH | apply perm_swap].
Qed.

Lemma Array_sort_perm (l : list A) : Permutation (Array_sort comparefn l) l.
Proof.
  induction l as [|x l IH]; simpl.
  - apply perm_nil.
  - eapply perm_trans; [apply insert_sorted_perm | apply perm_skip, IH].
Qed.

Lemma Array_sort_In (l : list A) (x : A) :
  In x (Array_sort comparefn l) <-> In x l.
Proof.
  split; apply Permutation_in;
    [apply Array_sort_perm | apply Permutation_sym, Array_sort_perm].
Qed.

Lemma Array_sort_length (l : list A) :
  length (Array_sort comparefn l) = length l.
Proof. apply Permutation_length, Array_sort_perm. Qed.

Lemma insert_sorted_sorted (x : A) (l : list A) :
  consistent_on comparefn (x :: l) ->
  StronglySorted (not_after comparefn) l ->
  StronglySorted (not_after comparefn) (insert_sorted comparefn x l).
Proof.
  intros Hc. induction 1 as [|y l Hs IH Hy]; simpl.
  - repeat constructor.
  - assert (Hc' : consistent_on comparefn (x :: l)).
    { apply (consistent_on_incl (x :: y :: l)); [|exact Hc].
      intros u [->|Hu]; simpl; auto. }
    destruct Hc as [Hanti Htrans].
    destruct (comparefn x y) eqn:Hxy.
    + constructor; [constructor; assumption|].
      constructor; [unfold not_after; congruence|].
      rewrite Forall_forall in Hy |- *. intros z Hz.
      apply (Htrans x y z); simpl; auto; [congruence | apply Hy, Hz].
    + constructor; [constructor; assumption|].
      constructor; [unfold not_after; congruence|].
      rewrite Forall_forall in Hy |- *. intros z Hz.
      apply (Htrans x y z); simpl; auto; [congruence | apply Hy, Hz].
    + constructor; [apply IH, Hc'|].
      rewrite Forall_forall in Hy |- *. intros z Hz.
      apply (Permutation_in _ (insert_sorted_perm x l)) in Hz.
      destruct Hz as [<-|Hz]; [|apply Hy, Hz].
      unfold not_after. rewrite (Hanti x y), Hxy; simpl; auto. discriminate.
Qed.

(** On a consistent callback the result of [sort] is sorted. *)
Lemma Array_sort_sorted (l : list A) :
  consistent_on comparefn l ->
  StronglySorted (not_after comparefn) (Array_sort comparefn l).
Proof.
  induction l as [|x l IH]; intros Hc; simpl.
  - constructor.
  - apply insert_sorted_sorted.
    + apply (consistent_on_incl (x :: l)); [|exact Hc].
      intros u [->|Hu]; [left; reflexivity | right; apply Array_sort_In, Hu].
    + apply IH. apply (consistent_on_incl (x :: l)); [|exact Hc].
      intros u Hu; right; exact Hu.
Qed.

Lemma insert_sorted_filter (p : A -> bool) (x : A) (l : list A) :
  (p x = true -> forall y, In y l -> comparefn x y = Gt -> p y = false) ->
  filter p (insert_sorted comparefn x l) = filter p (x :: l).
Proof.
  induction l as [|y l IH]; intros Hp; simpl; [reflexivity|].
  destruct (comparefn x y) eqn:Hxy; try reflexivity.
  simpl. simpl in IH. rewrite IH by (intros Hx z Hz; apply Hp; simpl; auto).
  destruct (p x) eqn:Hx; [|reflexivity].
  rewrite (Hp eq_refl y) by (simpl; auto). reflexivity.
Qed.

(** [sort] is stable: the elements tied with [x] keep their order. *)
Lemma Array_sort_stable (l : list A) (x : A) :
  consistent_on comparefn (x :: l) ->
  filter (tied comparefn x) (Array_sort comparefn l)
  = filter (tied comparefn x) l.
Proof.
  induction l as [|a l IH]; intros Hc; [reflexivity|].
  simpl Array_sort. rewrite insert_sorted_filter.
  - simpl. rewrite IH; [reflexivity|].
    apply (consistent_on_incl (x :: a :: l)); [|exact Hc].
    intros u [->|Hu]; simpl; auto.
  - intros Hxa y Hy Hay. apply (proj1 (Array_sort_In _ _)) in Hy.
    destruct Hc as [Hanti Htrans]. unfold tied in *.
    destruct (comparefn x a) eqn:Exa; try discriminate.
    destruct (comparefn x y) eqn:Exy; try reflexivity.
    assert (Hne : comparefn a y <> Gt); [|congruence].
    apply (Htrans a x y); [simpl; auto | simpl; auto | simpl; auto | |].
    + rewrite (Hanti x a), Exa; simpl; auto. discriminate.
    + rewrite Exy. discriminate.
Qed.
End ArraySortFacts.

(** ** Grouping by area *)

Lemma first_appearances_In (l : list string) (x : string) :
  In x (first_appearances l) <-> In x l.
Proof.
  induction l as [|y l IH]; simpl; [tauto|].
  rewrite filter_In, IH, negb_true_iff, String.eqb_neq.
  destruct (String.eqb_spec x y); subst; intuition congruence.
Qed.

Lemma first_appearances_NoDup (l : list string) : NoDup (first_appearances l).
Proof.
  induction l as [|y l IH]; simpl; constructor.
  - rewrite filter_In, negb_true_iff, String.eqb_neq. tauto.
  - apply NoDup_filter, IH.
Qed.

Lemma first_appearances_snoc (l : list string) (x : string) :
  first_appearances (l ++ [x])
  = if existsb (String.eqb x) l then first_appearances l
    else first_appearances l ++ [x].
Proof.
  induction l as [|y l IH]; simpl; [reflexivity|].
  rewrite IH. destruct (String.eqb_spec x y) as [->|Hxy]; simpl.
  - destruct (existsb (String.eqb y) l); [reflexivity|].
    rewrite filter_app; simpl. rewrite String.eqb_refl; simpl.
    now rewrite app_nil_r.
  - destruct (existsb (String.eqb x) l); [reflexivity|].
    rewrite filter_app; simpl.
    destruct (String.eqb_spec x y); [contradiction | reflexivity].
Qed.

Lemma existsb_eqb_In (x : string) (l : list string) :
  existsb (String.eqb x) l = true <-> In x l.
Proof.
  rewrite existsb_exists. split.
  - intros (y & Hy & Hxy). apply String.eqb_eq in Hxy. now subst.
  - intros Hx. exists x. split; [assumption | apply String.eqb_refl].
Qed.

Lemma byArea_push_map (keys : list string) (rows : string -> list PanelRecord)
    (f : PanelRecord) :
  NoDup keys ->
  byArea_push (map (fun a => (a, rows a)) keys) f
  = map (fun a => (a, if String.eqb a (area_id f) then rows a ++ [f] else rows a))
        keys
    ++ (if existsb (String.eqb (area_id f)) keys then [] else [(area_id f, [f])]).
Proof.
  induction 1 as [|k keys Hk Hnd IH]; simpl; [reflexivity|].
  destruct (String.eqb_spec k (area_id f)) as [->|Hne].
  - rewrite String.eqb_refl; simpl. rewrite app_nil_r. f_equal.
    apply map_ext_in. intros a Ha.
    destruct (String.eqb_spec a (area_id f)); [subst; contradiction | reflexivity].
  - rewrite IH. destruct (String.eqb_spec (area_id f) k); [congruence|].
    reflexivity.
Qed.

Lemma filter_of_area_absent (a : string) (features : list PanelRecord) :
  ~ In a (map area_id features) -> filter (of_area a) features = [].
Proof.
  induction features as [|g gs IH]; simpl; intros Hn; [reflexivity|].
  change (of_area a g) with (String.eqb (area_id g) a).
  destruct (String.eqb_spec (area_id g) a) as [E|E]; [tauto|].
  apply IH. tauto.
Qed.

Lemma group_by_area_snoc (features : list PanelRecord) (f : PanelRecord) :
  byArea_push (groups_of features) f = groups_of (features ++ [f]).
Proof.
  unfold groups_of. rewrite byArea_push_map by apply first_appearances_NoDup.
  rewrite map_app; simpl. rewrite first_appearances_snoc.
  assert (Hmap : forall keys,
    map (fun a => (a, if String.eqb a (area_id f)
                      then filter (of_area a) features ++ [f]
                      else filter (of_area a) features)) keys
    = map (fun a => (a, filter (of_area a) (features ++ [f]))) keys).
  { intros keys. apply map_ext. intros a. rewrite filter_app; simpl.
    change (of_area a f) with (String.eqb (area_id f) a).
    rewrite (String.eqb_sym (area_id f) a).
    destruct (String.eqb a (area_id f)); [reflexivity | now rewrite app_nil_r]. }
  rewrite Hmap.
  assert (He : existsb (String.eqb (area_id f))
                 (first_appearances (map area_id features))
               = existsb (String.eqb (area_id f)) (map area_id features)).
  { apply eq_true_iff_eq. rewrite !existsb_eqb_In. apply first_appearances_In. }
  rewrite He. destruct (existsb (String.eqb (area_id f)) (map area_id features)) eqn:Hex.
  - now rewrite app_nil_r.
  - rewrite map_app; simpl. do 3 f_equal.
    rewrite filter_app; simpl.
    change (of_area (area_id f) f) with (String.eqb (area_id f) (area_id f)).
    rewrite String.eqb_refl.
    replace (filter (of_area (area_id f)) features) with (@nil PanelRecord);
      [reflexivity|].
    symmetry. apply filter_of_area_absent.
    apply not_true_iff_false in Hex. now rewrite existsb_eqb_In in Hex.
Qed.

(** The grouping loop yields one entry per area, areas in order of first
    appearance, each holding the area's records in input order. *)
Lemma group_by_area_spec (features : list PanelRecord) :
  group_by_area features = groups_of features.
Proof.
  unfold group_by_area.
  induction features as [|f features IH] using rev_ind; [reflexivity|].
  rewrite fold_left_app; simpl. rewrite IH. apply group_by_area_snoc.
Qed.

(** ** The per-area loop *)

Lemma enrich_from_nth (sorted : list PanelRecord) (threshold : number)
    (rest : list PanelRecord) :
  forall t0 i,
    nth_error (enrich_from sorted threshold t0 rest) i
    = option_map (enrich sorted threshold (t0 + i)) (nth_error rest i).
Proof.
  induction rest as [|r rest IH]; intros t0 i; simpl.
  - destruct i; reflexivity.
  - destruct i as [|i]; simpl.
    + now rewrite Nat.add_0_r.
    + rewrite IH. now rewrite Nat.add_succ_r.
Qed.

Lemma enrich_from_rows (sorted : list PanelRecord) (threshold : number)
    (rest : list PanelRecord) :
  forall t0, map row (enrich_from sorted threshold t0 rest) = rest.
Proof.
  induction rest as [|r rest IH]; intros t0; simpl; [reflexivity|].
  now rewrite IH.
Qed.

(** The loop emits the records of the group unchanged and in order, each with
    its three derived fields. *)
Lemma enrich_group_rows (threshold : number) (sorted : list PanelRecord) :
  map row (enrich_group threshold sorted) = sorted.
Proof. apply enrich_from_rows. Qed.

Lemma enrich_group_nth (threshold : number) (sorted : list PanelRecord)
    (t : nat) (e : EnrichedRecord) :
  nth_error (enrich_group threshold sorted) t = Some e ->
  exists r, nth_error sorted t = Some r /\ e = enrich sorted threshold t r.
Proof.
  unfold enrich_group. rewrite enrich_from_nth; simpl.
  destruct (nth_error sorted t) as [r|]; simpl; [|discriminate].
  intros [= <-]. now exists r.
Qed.

Lemma enrich_group_length (threshold : number) (sorted : list PanelRecord) :
  length (enrich_group threshold sorted) = length sorted.
Proof.
  rewrite <- (enrich_group_rows threshold sorted) at 2. now rewrite length_map.
Qed.

Lemma filter_all {A} (p : A -> bool) (l : list A) :
  (forall x, In x l -> p x = true) -> filter p l = l.
Proof.
  induction l as [|x l IH]; simpl; intros Hp; [reflexivity|].
  rewrite Hp by auto. f_equal. apply IH. auto.
Qed.

Lemma filter_none {A} (p : A -> bool) (l : list A) :
  (forall x, In x l -> p x = false) -> filter p l = [].
Proof.
  induction l as [|x l IH]; simpl; intros Hp; [reflexivity|].
  rewrite Hp by auto. apply IH. auto.
Qed.

(** Filtering a concatenation of keyed groups by one key selects that key's
    group. *)
Lemma area_group_flat_map (G : string -> list EnrichedRecord)
    (keys : list string) (a : string) :
  NoDup keys ->
  (forall k e, In e (G k) -> area_id (row e) = k) ->
  area_group (flat_map G keys) a = if existsb (String.eqb a) keys then G a else [].
Proof.
  intros Hnd HG. unfold area_group.
  induction Hnd as [|k keys Hk Hnd IH]; simpl; [reflexivity|].
  rewrite filter_app, IH.
  destruct (String.eqb_spec a k) as [->|Hne]; simpl.
  - rewrite filter_all.
    + destruct (existsb (String.eqb k) keys) eqn:Hex; [|apply app_nil_r].
      apply existsb_eqb_In in Hex. contradiction.
    + intros e He. apply String.eqb_eq. now apply HG.
  - rewrite filter_none; [reflexivity|].
    intros e He. apply String.eqb_neq. rewrite (HG k e He). congruence.
Qed.

Section EngineFacts.
Variable localeCompare : string -> string -> comparison.

Lemma sorted_groups_spec (features : list PanelRecord) :
  sorted_groups localeCompare features
  = map (sorted_rows localeCompare features) (first_appearances (map area_id features)).
Proof.
  unfold sorted_groups. rewrite group_by_area_spec. unfold groups_of.
  rewrite map_map. reflexivity.
Qed.

Lemma recomputeAlerts_flat_map (features : list PanelRecord)
    (threshold : number) :
  recomputeAlerts localeCompare (Some features) threshold
  = flat_map (fun a => enrich_group threshold (sorted_rows localeCompare features a))
             (first_appearances (map area_id features)).
Proof.
  destruct features as [|f features]; [reflexivity|].
  unfold recomputeAlerts. rewrite sorted_groups_spec.
  rewrite !flat_map_concat_map, map_map. reflexivity.
Qed.

Lemma sorted_rows_area (features : list PanelRecord) (a : string)
    (r : PanelRecord) :
  In r (sorted_rows localeCompare features a) -> area_id r = a.
Proof.
  unfold sorted_rows. rewrite Array_sort_In, filter_In.
  intros [_ Hr]. now apply String.eqb_eq in Hr.
Qed.

(** The group of an area in the output is the enrichment of the area's
    time-sorted input records. *)
Lemma area_group_recomputeAlerts (features : list PanelRecord)
    (threshold : number) (a : string) :
  area_group (recomputeAlerts localeCompare (Some features) threshold) a
  = enrich_group threshold (sorted_rows localeCompare features a).
Proof.
  rewrite recomputeAlerts_flat_map.
  rewrite (area_group_flat_map
             (fun a => enrich_group threshold (sorted_rows localeCompare features a))).
  - destruct (existsb (String.eqb a)
                (first_appearances (map area_id features))) eqn:Hex;
      [reflexivity|].
    apply not_true_iff_false in Hex.
    rewrite existsb_eqb_In, first_appearances_In in Hex.
    unfold sorted_rows. now rewrite filter_of_area_absent.
  - apply first_appearances_NoDup.
  - intros k e He. apply (sorted_rows_area features).
    rewrite <- (enrich_group_rows threshold (sorted_rows localeCompare features k)).
    now apply in_map.
Qed.

End EngineFacts.

(** ** The alert engine *)

Lemma filter_non_null_risks (records : list PanelRecord) :
  filter_non_null (map risk_index records) = defined_risks records.
Proof.
  induction records as [|r records IH]; simpl; [reflexivity|].
  destruct (risk_index r); simpl; now rewrite IH.
Qed.

Lemma history_spec (sorted : list PanelRecord) (t : nat) :
  history sorted t = defined_risks (preceding 6 t sorted).
Proof.
  unfold history, preceding, slice, BASELINE_WINDOW.
  rewrite filter_non_null_risks.
  replace (Z.to_nat (Z.max 0 (Z.of_nat t - Z.of_nat 6))) with (t - 6) by lia.
  now rewrite skipn_firstn_comm.
Qed.

Lemma preceding_length {A} (n t : nat) (l : list A) :
  length (preceding n t l) <= Nat.min n t.
Proof.
  unfold preceding. rewrite length_skipn, length_firstn. lia.
Qed.

Lemma defined_risks_length (records : list PanelRecord) :
  length (defined_risks records) <= length records.
Proof.
  induction records as [|r records IH]; simpl; [lia|].
  destruct (risk_index r); simpl; lia.
Qed.

Lemma riPrev_risk_at (threshold : number) (sorted : list PanelRecord)
    (t k : nat) :
  riPrev sorted t k
  = if k <=? t then risk_at (enrich_group threshold sorted) (t - k) else None.
Proof.
  unfold riPrev, risk_at, enrich_group. rewrite enrich_from_nth; simpl.
  destruct (k <=? t); [|reflexivity].
  destruct (nth_error sorted (t - k)); reflexivity.
Qed.

Lemma alertLevel_cases (spike trend3 : bool) :
  alertLevel spike trend3
  = if spike && trend3 then warning
    else if xorb spike trend3 then watch else none.
Proof. destruct spike, trend3; reflexivity. Qed.

Lemma alertTrend3_iff (ri riPrev1 riPrev2 : option number) :
  alertTrend3 ri riPrev1 riPrev2 = true <->
  exists v2 v1 v0,
    riPrev2 = Some v2 /\ riPrev1 = Some v1 /\ ri = Some v0 /\
    PrimFloat.ltb v2 v1 = true /\ PrimFloat.ltb v1 v0 = true.
Proof.
  unfold alertTrend3, gt.
  destruct ri as [v0|], riPrev1 as [v1|], riPrev2 as [v2|];
    (split; [try discriminate | try (intros (? & ? & ? & ? & ? & ? & _); discriminate)]).
  - intros Hb. apply andb_true_iff in Hb as [Ha Hb]. exists v2, v1, v0. auto.
  - intros (w2 & w1 & w0 & [= <-] & [= <-] & [= <-] & Ha & Hb). now rewrite Ha, Hb.
Qed.

Lemma history_length (sorted : list PanelRecord) (t : nat) :
  length (history sorted t) <= Nat.min 6 t.
Proof.
  rewrite history_spec.
  eapply Nat.le_trans; [apply defined_risks_length | apply preceding_length].
Qed.

Lemma baseline_short (values : list number) :
  length values < 3 -> baseline values = None.
Proof.
  intros Hlt. unfold baseline, MIN_PERIODS.
  now replace (3 <=? length values) with false by (symmetry; apply Nat.leb_gt; lia).
Qed.

Section AlertEngine.
Variable localeCompare : string -> string -> comparison.

(** Every record of the output comes out of the loop body, run on the
    time-sorted group of its area at its position in that group. *)
Lemma area_group_nth (features : option (list PanelRecord))
    (threshold : number) (a : string) (t : nat) (e : EnrichedRecord) :
  nth_error (area_group (recomputeAlerts localeCompare features threshold) a) t
  = Some e ->
  exists fs sorted r,
    features = Some fs /\
    sorted = sorted_rows localeCompare fs a /\
    area_group (recomputeAlerts localeCompare features threshold) a
    = enrich_group threshold sorted /\
    nth_error sorted t = Some r /\
    e = enrich sorted threshold t r.
Proof.
  destruct features as [fs|].
  - rewrite area_group_recomputeAlerts. intros He.
    destruct (enrich_group_nth _ _ _ _ He) as (r & Hr & ->).
    exists fs, (sorted_rows localeCompare fs a), r. auto.
  - destruct t; discriminate.
Qed.

Lemma recomputeAlerts_In (features : option (list PanelRecord))
    (threshold : number) (e : EnrichedRecord) :
  In e (recomputeAlerts localeCompare features threshold) ->
  exists sorted t r, e = enrich sorted threshold t r.
Proof.
  destruct features as [fs|]; [|intros []].
  rewrite recomputeAlerts_flat_map, in_flat_map.
  intros (a & _ & He). apply In_nth_error in He as [t Ht].
  destruct (enrich_group_nth _ _ _ _ Ht) as (r & _ & ->). eauto.
Qed.

(** C1: in every area group of the output, the record at chronological
    position [t] has [alert_spike] set exactly when the up-to-6 records
    just before it hold at least 3 risk values, its own risk value is
    present, and that value is strictly greater than the mean of those
    values times [1 + threshold]; with fewer than 3 values in the window
    the flag is off whatever the current value. *)
Theorem recomputeAlerts_spike_iff (features : option (list PanelRecord))
    (threshold : number) (a : string) (t : nat) (e : EnrichedRecord) :
  let group := area_group (recomputeAlerts localeCompare features threshold) a in
  let window := defined_risks (preceding 6 t (map row group)) in
  nth_error group t = Some e ->
  (alert_spike e = true <->
     3 <= length window /\
     exists ri, risk_index (row e) = Some ri /\
                gt ri (mean window * (1 + threshold))%float = true)
  /\ (length window < 3 -> alert_spike e = false).
Proof.
  intros group window He. subst group window.
  destruct (area_group_nth _ _ _ _ _ He) as (fs & sorted & r & -> & Hs & Hg & Hr & ->).
  rewrite Hg, enrich_group_rows, <- history_spec. simpl.
  unfold baseline, mean, MIN_PERIODS.
  destruct (Nat.leb_spec 3 (length (history sorted t))) as [Hlen|Hlen]; simpl.
  - split; [|lia]. destruct (risk_index r) as [ri|].
    + split.
      * intros Hgt. split; [assumption|]. now exists ri.
      * intros (_ & ri' & [= <-] & Hgt). exact Hgt.
    + split; [discriminate|]. intros (_ & ri' & Habs & _). discriminate.
  - split; [|reflexivity]. split; [discriminate | lia].
Qed.

(** C4: in every area group of the output, the record at chronological
    position [t] has [alert_trend3] set exactly when the records at
    positions [t-2], [t-1] and [t] exist, all carry a risk value, and the
    three values increase strictly; a missing value at [t-1] or [t-2]
    turns the flag off, whatever stands further back. *)
Theorem recomputeAlerts_trend3_iff (features : option (list PanelRecord))
    (threshold : number) (a : string) (t : nat) (e : EnrichedRecord) :
  let group := area_group (recomputeAlerts localeCompare features threshold) a in
  nth_error group t = Some e ->
  (alert_trend3 e = true <->
     2 <= t /\
     exists v2 v1 v0,
       risk_at group (t - 2) = Some v2 /\
       risk_at group (t - 1) = Some v1 /\
       risk_at group t = Some v0 /\
       PrimFloat.ltb v2 v1 = true /\ PrimFloat.ltb v1 v0 = true)
  /\ (1 <= t -> risk_at group (t - 1) = None -> alert_trend3 e = false)
  /\ (2 <= t -> risk_at group (t - 2) = None -> alert_trend3 e = false).
Proof.
  intros group He. subst group.
  destruct (area_group_nth _ _ _ _ _ He) as (fs & sorted & r & -> & Hs & Hg & Hr & ->).
  rewrite Hg. simpl.
  assert (H0 : risk_at (enrich_group threshold sorted) t = risk_index r).
  { unfold risk_at, enrich_group. rewrite enrich_from_nth, Hr. reflexivity. }
  rewrite H0, alertTrend3_iff, !(riPrev_risk_at threshold).
  destruct (Nat.leb_spec 2 t) as [H2|H2].
  - replace (1 <=? t) with true by (symmetry; apply Nat.leb_le; lia).
    split; [split|split].
    + intros (v2 & v1 & v0 & Hex). split; [assumption|]. now exists v2, v1, v0.
    + intros (_ & v2 & v1 & v0 & Hex). now exists v2, v1, v0.
    + intros _ Hn. apply not_true_iff_false. rewrite alertTrend3_iff, Hn.
      intros (v2 & v1 & v0 & _ & Habs & _). discriminate.
    + intros _ Hn. apply not_true_iff_false. rewrite alertTrend3_iff, Hn.
      intros (v2 & v1 & v0 & Habs & _). discriminate.
  - split; [split|split].
    + intros (v2 & v1 & v0 & Habs & _). discriminate.
    + lia.
    + intros _ _. apply not_true_iff_false. rewrite alertTrend3_iff.
      intros (v2 & v1 & v0 & Habs & _). discriminate.
    + lia.
Qed.

(** C5: on every record of the output the level is [warning] exactly when
    both flags are set, [watch] exactly when one of them is, [none] exactly
    when neither is; two records with the same flags have the same
    level. *)
Theorem recomputeAlerts_level_iff (features : option (list PanelRecord))
    (threshold : number) :
  let out := recomputeAlerts localeCompare features threshold in
  (forall e, In e out ->
     (alert_level e = warning <-> alert_spike e = true /\ alert_trend3 e = true) /\
     (alert_level e = watch <-> xorb (alert_spike e) (alert_trend3 e) = true) /\
     (alert_level e = none <-> alert_spike e = false /\ alert_trend3 e = false)) /\
  (forall e1 e2, In e1 out -> In e2 out ->
     alert_spike e1 = alert_spike e2 -> alert_trend3 e1 = alert_trend3 e2 ->
     alert_level e1 = alert_level e2).
Proof.
  intros out. subst out. split.
  - intros e He. apply recomputeAlerts_In in He as (sorted & t & r & ->).
    simpl. rewrite alertLevel_cases.
    destruct (alertSpike _ _ _), (alertTrend3 _ _ _); simpl;
      repeat split; intros; try discriminate; try tauto;
      match goal with H : _ /\ _ |- _ => destruct H; discriminate end.
  - intros e1 e2 H1 H2.
    apply recomputeAlerts_In in H1 as (s1 & t1 & r1 & ->).
    apply recomputeAlerts_In in H2 as (s2 & t2 & r2 & ->).
    simpl. intros -> ->. reflexivity.
Qed.

(** C8: an empty array, like a missing one, gives the empty array; run on
    the heap, the engine does not get stuck on either: for a missing array
    it returns a new empty array, for an empty one that array itself. *)
Theorem recomputeAlerts_empty (threshold : number) :
  recomputeAlerts localeCompare None threshold = [] /\
  recomputeAlerts localeCompare (Some []) threshold = [] /\
  (forall h : heap array,
     exists result h',
       recomputeAlerts_run localeCompare None threshold h = Some (result, h') /\
       enriched_view h' result = Some []) /\
  (forall (h : heap array) (features : ref),
     nth_error h features = Some (PanelArray []) ->
     recomputeAlerts_run localeCompare (Some features) threshold h
     = Some (features, h) /\
     enriched_view h features = Some []).
Proof.
  split; [reflexivity|]. split; [reflexivity|]. split.
  - intros h. exists (length h), (h ++ [EnrichedArray []]).
    split; [reflexivity|].
    unfold enriched_view. rewrite nth_error_app2 by lia.
    now rewrite Nat.sub_diag.
  - intros h features Hf. split.
    + unfold recomputeAlerts_run, bind, load_panel, bind, load.
      now rewrite Hf.
    + unfold enriched_view. now rewrite Hf.
Qed.

(** C10: in every area group of the output the first three records have
    [alert_spike] off, and the first two also have [alert_trend3] off and
    the level [none], whatever their risk values. *)
Theorem recomputeAlerts_warm_up (features : option (list PanelRecord))
    (threshold : number) (a : string) (t : nat) (e : EnrichedRecord) :
  let group := area_group (recomputeAlerts localeCompare features threshold) a in
  nth_error group t = Some e ->
  (t < 3 -> alert_spike e = false) /\
  (t < 2 -> alert_trend3 e = false /\ alert_level e = none).
Proof.
  intros group He. subst group.
  destruct (area_group_nth _ _ _ _ _ He) as (fs & sorted & r & _ & _ & _ & _ & ->).
  simpl.
  assert (Hspike : t < 3 ->
            alertSpike (baseline (history sorted t)) (risk_index r) threshold = false).
  { intros Hlt. rewrite baseline_short; [reflexivity|].
    pose proof (history_length sorted t). lia. }
  split; [exact Hspike|]. intros Hlt.
  assert (Htrend : alertTrend3 (risk_index r) (riPrev sorted t 1) (riPrev sorted t 2)
                   = false).
  { unfold riPrev at 2. replace (2 <=? t) with false by (symmetry; apply Nat.leb_gt; lia).
    unfold alertTrend3. destruct (risk_index r), (riPrev sorted t 1); reflexivity. }
  split; [exact Htrend|].
  rewrite Htrend, Hspike by lia. reflexivity.
Qed.

End AlertEngine.

(** ** Cardinality and order of the output *)

Lemma count_key_NoDup (keys : list string) (x : string) :
  NoDup keys -> In x keys ->
  list_sum (map (fun k => if String.eqb x k then 1 else 0) keys) = 1.
Proof.
  induction 1 as [|k keys Hk Hnd IH]; simpl; [intros []|].
  intros [->|Hx].
  - rewrite String.eqb_refl.
    replace (list_sum _) with 0; [reflexivity|].
    symmetry. clear IH Hnd. induction keys as [|k keys IHk]; simpl; [reflexivity|].
    destruct (String.eqb_spec x k) as [->|_]; [exfalso; apply Hk; now left|].
    apply IHk. intros Hin. apply Hk. now right.
  - destruct (String.eqb_spec x k) as [->|_]; [contradiction|].
    now rewrite IH.
Qed.

(** Splitting an array by area, over a duplicate-free list of areas that
    covers it, loses and repeats nothing. *)
Lemma partition_by_area_length (keys : list string) (features : list PanelRecord) :
  NoDup keys ->
  (forall f, In f features -> In (area_id f) keys) ->
  list_sum (map (fun a => length (filter (of_area a) features)) keys)
  = length features.
Proof.
  intros Hnd. induction features as [|f features IH]; intros Hcov.
  - clear. induction keys as [|k keys IHk]; simpl; [reflexivity | exact IHk].
  - change (length (f :: features)) with (1 + length features).
    rewrite <- IH by (intros g Hg; apply Hcov; now right).
    rewrite <- (count_key_NoDup keys (area_id f) Hnd) by (apply Hcov; now left).
    clear. induction keys as [|k keys IHk]; simpl; [reflexivity|].
    change (of_area k f) with (String.eqb (area_id f) k).
    simpl in IHk. destruct (String.eqb (area_id f) k); simpl; lia.
Qed.

Section OutputOrder.
Variable localeCompare : string -> string -> comparison.

Lemma by_month_consistent (features group : list PanelRecord) :
  incl group features ->
  consistent_on localeCompare (map month features) ->
  consistent_on (by_month localeCompare) group.
Proof.
  intros Hi [Ha Ht]. unfold by_month.
  assert (Hm : forall r, In r group -> In (month r) (map month features))
    by (intros r Hr; apply in_map, Hi, Hr).
  split.
  - intros x y Hx Hy. apply Ha; auto.
  - intros x y z Hx Hy Hz. apply Ht; auto.
Qed.

(** C3: the output has as many records as the input; it is the
    concatenation of the area groups, one per area, in the order in which
    the areas first appear in the input; each group holds the input
    records of its area, as many as the input has, sorted ascending by
    month.  Months are ordered as [localeCompare] orders them, which the
    language requires to be a consistent comparison; that is assumed here
    of the months of the input. *)
Theorem recomputeAlerts_grouped_sorted (features : list PanelRecord)
    (threshold : number) :
  consistent_on localeCompare (map month features) ->
  let out := recomputeAlerts localeCompare (Some features) threshold in
  let areas := first_appearances (map area_id features) in
  length out = length features /\
  out = flat_map (area_group out) areas /\
  NoDup areas /\
  (forall a, In a areas <-> exists f, In f features /\ area_id f = a) /\
  forall a,
    Permutation (map row (area_group out a)) (filter (of_area a) features) /\
    length (area_group out a) = length (filter (of_area a) features) /\
    StronglySorted
      (fun r1 r2 => localeCompare (month r1) (month r2) <> Gt)
      (map row (area_group out a)).
Proof.
  intros Hc out areas.
  assert (Hgroup : forall a,
    area_group out a = enrich_group threshold (sorted_rows localeCompare features a))
    by (intros a; apply area_group_recomputeAlerts).
  assert (Hout : out = flat_map (area_group out) areas).
  { unfold out at 1. rewrite recomputeAlerts_flat_map.
    apply flat_map_ext. intros a. now rewrite Hgroup. }
  assert (Hlen : forall a,
    length (area_group out a) = length (filter (of_area a) features)).
  { intros a. rewrite Hgroup, enrich_group_length. apply Array_sort_length. }
  repeat split.
  - rewrite Hout, length_flat_map.
    rewrite (map_ext _ (fun a => length (filter (of_area a) features)) Hlen).
    apply partition_by_area_length; [apply first_appearances_NoDup|].
    intros f Hf. apply first_appearances_In. now apply in_map.
  - exact Hout.
  - apply first_appearances_NoDup.
  - intros Ha. apply first_appearances_In, in_map_iff in Ha.
    destruct Ha as (f & Hf & Hin). eauto.
  - intros (f & Hin & Hf). apply first_appearances_In. subst a. now apply in_map.
  - rewrite Hgroup, enrich_group_rows. apply Array_sort_perm.
  - apply Hlen.
  - rewrite Hgroup, enrich_group_rows.
    apply (Array_sort_sorted (by_month localeCompare)).
    apply (by_month_consistent features); [|exact Hc].
    intros r Hr. apply filter_In in Hr. tauto.
Qed.

End OutputOrder.

(** ** Objects, keys and sets *)

Lemma find_app {A} (p : A -> bool) (l l' : list A) :
  find p (l ++ l') = match find p l with Some x => Some x | None => find p l' end.
Proof.
  induction l as [|x l IH]; simpl; [reflexivity|].
  destruct (p x); [reflexivity | exact IH].
Qed.

Section ObjectFacts.
Context {V : Type}.

Lemma Get_CreateDataProperty (o : JSObject V) (k k' : string) (v : V) :
  Get (CreateDataProperty o k' v) k
  = if String.eqb k' k then Some v else Get o k.
Proof.
  induction o as [|[k0 v0] o IH]; simpl; [reflexivity|].
  destruct (String.eqb_spec k0 k') as [->|Hne]; simpl.
  - destruct (String.eqb k' k); reflexivity.
  - rewrite IH. destruct (String.eqb_spec k0 k) as [->|_]; [|reflexivity].
    destruct (String.eqb_spec k' k); [congruence | reflexivity].
Qed.

Lemma keys_CreateDataProperty (o : JSObject V) (k : string) (v : V) :
  map fst (CreateDataProperty o k v) = Set_add (map fst o) k.
Proof.
  unfold Set_add. induction o as [|[k0 v0] o IH]; simpl; [reflexivity|].
  rewrite (String.eqb_sym k k0).
  destruct (String.eqb k0 k); simpl; [reflexivity|].
  rewrite IH. destruct (existsb (String.eqb k) (map fst o)); reflexivity.
Qed.

(** Reading a key of [Object.fromEntries(entries)] gives the value of the
    last entry with that key. *)
Lemma Get_fold (entries : list (string * V)) :
  forall (o : JSObject V) (k : string),
    Get (fold_left (fun o kv => CreateDataProperty o (fst kv) (snd kv)) entries o) k
    = match find (fun kv => String.eqb (fst kv) k) (rev entries) with
      | Some kv => Some (snd kv)
      | None => Get o k
      end.
Proof.
  induction entries as [|[k0 v0] entries IH]; intros o k; simpl; [reflexivity|].
  rewrite IH, find_app, Get_CreateDataProperty; simpl.
  destruct (find _ (rev entries)); [reflexivity|].
  destruct (String.eqb k0 k); reflexivity.
Qed.

Lemma Get_fromEntries (entries : list (string * V)) (k : string) :
  Get (Object_fromEntries entries) k
  = option_map snd (find (fun kv => String.eqb (fst kv) k) (rev entries)).
Proof.
  unfold Object_fromEntries. rewrite Get_fold.
  destruct (find _ (rev entries)); reflexivity.
Qed.

Lemma keys_fold (entries : list (string * V)) :
  forall o : JSObject V,
    map fst (fold_left (fun o kv => CreateDataProperty o (fst kv) (snd kv)) entries o)
    = fold_left Set_add (map fst entries) (map fst o).
Proof.
  induction entries as [|[k0 v0] entries IH]; intros o; simpl; [reflexivity|].
  now rewrite IH, keys_CreateDataProperty.
Qed.

Lemma keys_fromEntries (entries : list (string * V)) :
  map fst (Object_fromEntries entries) = Set_of (map fst entries).
Proof. unfold Object_fromEntries, Set_of. now rewrite keys_fold. Qed.
End ObjectFacts.

(** [new Set(values)] lists the distinct values in order of first
    appearance. *)
Lemma Set_of_spec (values : list string) :
  Set_of values = first_appearances values.
Proof.
  unfold Set_of. induction values as [|x values IH] using rev_ind; [reflexivity|].
  rewrite fold_left_app; simpl. rewrite IH, first_appearances_snoc.
  unfold Set_add.
  replace (existsb (String.eqb x) (first_appearances values))
    with (existsb (String.eqb x) values); [reflexivity|].
  apply eq_true_iff_eq. rewrite !existsb_eqb_In. symmetry.
  apply first_appearances_In.
Qed.

Lemma filter_partition_perm {A} (p : A -> bool) (l : list A) :
  Permutation (filter p l ++ filter (fun x => negb (p x)) l) l.
Proof.
  induction l as [|x l IH]; simpl; [constructor|].
  destruct (p x); simpl.
  - now constructor.
  - apply Permutation_sym, Permutation_cons_app, Permutation_sym, IH.
Qed.

Lemma index_keys_fst (ks : list string) :
  map fst (index_keys ks)
  = filter (fun k => match array_index k with Some _ => true | None => false end) ks.
Proof.
  induction ks as [|k ks IH]; simpl; [reflexivity|].
  destruct (array_index k); simpl; now rewrite IH.
Qed.

(** [Object.keys] lists every own key once. *)
Lemma Object_keys_perm {V} (o : JSObject V) :
  Permutation (Object_keys o) (map fst o).
Proof.
  unfold Object_keys.
  eapply perm_trans; [|apply (filter_partition_perm
    (fun k => match array_index k with Some _ => true | None => false end))].
  apply Permutation_app.
  - rewrite <- index_keys_fst. apply Permutation_map, Array_sort_perm.
  - erewrite filter_ext; [apply Permutation_refl|].
    intros k. simpl. destruct (array_index k); reflexivity.
Qed.

(** ** The comparison engine *)

Lemma find_map {A B} (p : B -> bool) (g : A -> B) (l : list A) :
  find p (map g l) = option_map g (find (fun x => p (g x)) l).
Proof.
  induction l as [|x l IH]; simpl; [reflexivity|].
  destruct (p (g x)); [reflexivity | exact IH].
Qed.

Lemma find_filter {A} (p q : A -> bool) (l : list A) :
  find p (filter q l) = find (fun x => q x && p x) l.
Proof.
  induction l as [|x l IH]; simpl; [reflexivity|].
  destruct (q x); simpl; [|exact IH].
  destruct (p x); [reflexivity | exact IH].
Qed.

Lemma rev_filter {A} (p : A -> bool) (l : list A) :
  rev (filter p l) = filter p (rev l).
Proof.
  induction l as [|x l IH]; simpl; [reflexivity|].
  rewrite filter_app; simpl. destruct (p x); simpl.
  - now rewrite IH.
  - now rewrite IH, app_nil_r.
Qed.

Lemma record_at_None (rf : list EnrichedRecord) (m id : string) :
  record_at rf m id = None <-> ~ present rf m id.
Proof.
  unfold record_at, present. split.
  - intros Hf (f & Hin & Hm & Hid).
    apply in_rev in Hin. pose proof (find_none _ _ Hf f Hin) as Hb.
    simpl in Hb. subst. now rewrite !String.eqb_refl in Hb.
  - intros Hn. destruct (find _ (rev rf)) as [f|] eqn:Hf; [|reflexivity].
    exfalso. apply Hn. apply find_some in Hf as [Hin Hb].
    apply andb_true_iff in Hb as [Hm Hid].
    exists f. rewrite in_rev. rewrite !String.eqb_eq in *. auto.
Qed.

Lemma Get_byArea (rf : list EnrichedRecord) (m id : string) :
  Get (byArea rf m) id = record_at rf m id.
Proof.
  unfold byArea, record_at.
  rewrite Get_fromEntries, <- map_rev, rev_filter, find_map, find_filter; simpl.
  destruct (find _ (rev rf)); reflexivity.
Qed.

Lemma keys_byArea (rf : list EnrichedRecord) (m id : string) :
  In id (Object_keys (byArea rf m)) <-> present rf m id.
Proof.
  assert (Hk : In id (Object_keys (byArea rf m))
               <-> In id (map fst (byArea rf m))).
  { split; apply Permutation_in;
      [apply Object_keys_perm | apply Permutation_sym, Object_keys_perm]. }
  rewrite Hk. unfold byArea, present.
  rewrite keys_fromEntries, Set_of_spec, first_appearances_In, map_map; simpl.
  rewrite in_map_iff. split.
  - intros (f & Hid & Hf). apply filter_In in Hf as [Hin Hm].
    apply String.eqb_eq in Hm. eauto.
  - intros (f & Hin & Hm & Hid). exists f. split; [assumption|].
    apply filter_In. split; [assumption|]. now apply String.eqb_eq.
Qed.

Section ComparisonEngine.
Variable toFixed4 : number -> number.

(** C7: comparing a month with itself gives the empty array. *)
Theorem deltaFeatures_same_month (recomputedFeatures : option (list EnrichedRecord))
    (m : string) :
  deltaFeatures toFixed4 recomputedFeatures m m = [].
Proof.
  unfold deltaFeatures. destruct recomputedFeatures; [|reflexivity].
  now rewrite String.eqb_refl, orb_true_r.
Qed.

Lemma deltaFeatures_ids (rf : list EnrichedRecord) (monthA monthB : string) :
  monthA <> "" -> monthB <> "" -> monthA <> monthB ->
  deltaFeatures toFixed4 (Some rf) monthA monthB
  = map (delta_record toFixed4 (byArea rf monthA) (byArea rf monthB))
        (first_appearances (Object_keys (byArea rf monthA)
                            ++ Object_keys (byArea rf monthB))).
Proof.
  intros HA HB HAB. unfold deltaFeatures.
  apply String.eqb_neq in HA, HB, HAB. rewrite HA, HB, HAB; simpl.
  now rewrite Set_of_spec.
Qed.

(** C2: for two distinct months the comparison yields exactly one record
    per area that has a record at month A or at month B; a side without a
    record counts 0 thefts and has no risk value; [delta_risk_index] is the
    rounded difference of the two risk values when both are present and is
    missing otherwise, a missing side never being read as 0 for this
    field; [delta_count] is the difference of the two counts; the level
    and the stability flag are those of B's record, [none] and [false]
    when there is none.  A month is a string of the form [YYYY-MM]; the
    empty string is what the application holds before a month is chosen,
    hence the first two hypotheses. *)
Theorem deltaFeatures_union (rf : list EnrichedRecord) (monthA monthB : string) :
  monthA <> "" -> monthB <> "" -> monthA <> monthB ->
  let out := deltaFeatures toFixed4 (Some rf) monthA monthB in
  NoDup (map Delta.area_id out) /\
  (forall id, In id (map Delta.area_id out)
              <-> present rf monthA id \/ present rf monthB id) /\
  forall d, In d out ->
    let a := record_at rf monthA (Delta.area_id d) in
    let b := record_at rf monthB (Delta.area_id d) in
    (a = None <-> ~ present rf monthA (Delta.area_id d)) /\
    (b = None <-> ~ present rf monthB (Delta.area_id d)) /\
    Delta.theft_count_a d = count_or_0 a /\
    Delta.theft_count_b d = count_or_0 b /\
    Delta.risk_index_a d = risk_of a /\
    Delta.risk_index_b d = risk_of b /\
    (a = None -> Delta.theft_count_a d = 0%float /\ Delta.risk_index_a d = None
                 /\ Delta.delta_risk_index d = None) /\
    (b = None -> Delta.theft_count_b d = 0%float /\ Delta.risk_index_b d = None
                 /\ Delta.delta_risk_index d = None) /\
    Delta.delta_risk_index d
    = match risk_of a, risk_of b with
      | Some x, Some y => Some (toFixed4 (y - x)%float)
      | _, _ => None
      end /\
    Delta.delta_count d = (count_or_0 b - count_or_0 a)%float /\
    Delta.alert_level d
    = match b with Some r => alert_level r | None => none end /\
    Delta.stability_flag d
    = match b with
      | Some r => match stability_flag (row r) with Some s => s | None => false end
      | None => false
      end.
Proof.
  intros HA HB HAB out. subst out. rewrite deltaFeatures_ids by assumption.
  set (ids := first_appearances _).
  assert (Hids : map Delta.area_id
                   (map (delta_record toFixed4 (byArea rf monthA) (byArea rf monthB)) ids)
                 = ids).
  { rewrite map_map; simpl. apply map_id. }
  rewrite Hids. split; [apply first_appearances_NoDup|]. split.
  - intros id. unfold ids.
    now rewrite first_appearances_In, in_app_iff, !keys_byArea.
  - intros d Hd. apply in_map_iff in Hd as (id & <- & _). simpl.
    rewrite !Get_byArea.
    split; [apply record_at_None|]. split; [apply record_at_None|].
    destruct (record_at rf monthA id) as [ra|], (record_at rf monthB id) as [rb|];
      simpl; repeat split; try discriminate; try reflexivity;
      try (destruct (theft_count (row ra)); reflexivity);
      try (destruct (theft_count (row rb)); reflexivity);
      try (destruct (stability_flag (row rb)); reflexivity);
      try (destruct (risk_index (row ra)); reflexivity);
      try (destruct (risk_index (row rb)); reflexivity).
    all: destruct (theft_count (row ra)), (theft_count (row rb)); reflexivity.
Qed.

End ComparisonEngine.

(** ** Facts on the heap *)

Section HeapFacts.
Context {T : Type}.

Lemma load_fresh (h g : heap T) (i : nat) (v : T) :
  nth_error g i = Some v ->
  load (length h + i) (h ++ g) = Some (v, h ++ g).
Proof.
  intros Hv. unfold load.
  rewrite nth_error_app2 by lia.
  replace (length h + i - length h) with i by lia. now rewrite Hv.
Qed.

Lemma load_old (h g : heap T) (r : ref) (v : T) :
  nth_error h r = Some v ->
  load r (h ++ g) = Some (v, h ++ g).
Proof.
  intros Hv. unfold load.
  rewrite nth_error_app1 by (apply nth_error_Some; congruence).
  now rewrite Hv.
Qed.

Lemma alloc_fresh (h g : heap T) (v : T) :
  alloc v (h ++ g) = Some (length h + length g, h ++ (g ++ [v])).
Proof. unfold alloc. now rewrite length_app, app_assoc. Qed.

Lemma store_fresh (h g : heap T) (i : nat) (v : T) :
  i < length g ->
  store (length h + i) v (h ++ g)
  = Some (tt, h ++ (firstn i g ++ v :: skipn (S i) g)).
Proof.
  intros Hi. unfold store. rewrite length_app.
  replace (length h + i <? length h + length g) with true
    by (symmetry; apply Nat.ltb_lt; lia).
  rewrite firstn_app, skipn_app.
  rewrite firstn_all2 by lia. rewrite skipn_all2 by lia.
  replace (length h + i - length h) with i by lia.
  replace (S (length h + i) - length h) with (S i) by lia.
  simpl. now rewrite <- app_assoc.
Qed.

Lemma old_cell_kept (h g : heap T) (r : ref) (v : T) :
  nth_error h r = Some v -> nth_error (h ++ g) r = Some v.
Proof.
  intros Hv. rewrite nth_error_app1; [assumption|].
  apply nth_error_Some. congruence.
Qed.
End HeapFacts.

Section HeapRankingFacts.
Context {R : Type} `{Ranked R}.
Variable metric : string.
Variable filterAlertsOnly : bool.

(** Run on a heap that holds the source array, the selector returns a new
    array with the ranked records and leaves every array that existed
    before as it was. *)
Lemma rankedTopN_run_spec (h : heap (list R)) (source : ref) (src : list R) :
  nth_error h source = Some src ->
  exists (result : ref) (fresh : heap (list R)),
    rankedTopN_run metric filterAlertsOnly source h = Some (result, h ++ fresh) /\
    nth_error (h ++ fresh) result = Some (rankedTopN metric filterAlertsOnly src).
Proof.
  intros Hsrc.
  exists (length h + 3).
  eexists. split.
  - rewrite <- (app_nil_r h) at 1.
    unfold rankedTopN_run, bind.
    rewrite (load_old h [] source src Hsrc).
    rewrite alloc_fresh; cbn [app length].
    erewrite load_fresh by reflexivity.
    rewrite alloc_fresh; cbn [app length].
    erewrite load_fresh by reflexivity.
    rewrite alloc_fresh; cbn [app length].
    erewrite load_fresh by reflexivity.
    rewrite store_fresh by (simpl; lia). cbn [firstn skipn app].
    erewrite load_fresh by reflexivity.
    rewrite alloc_fresh; cbn [app length]. reflexivity.
  - rewrite nth_error_app2 by lia.
    replace (length h + 3 - length h) with 3 by lia. reflexivity.
Qed.
End HeapRankingFacts.

(** *** The alert engine on the heap *)

Lemma cells_of_length (m : AreaMap) : length (cells_of m) = length m.
Proof. apply length_map. Qed.

Lemma refs_of_cons (base : nat) (kv : string * list PanelRecord) (m : AreaMap) :
  refs_of base (kv :: m) = (fst kv, base) :: refs_of (S base) m.
Proof. reflexivity. Qed.

Lemma refs_of_snoc (base : nat) (m : AreaMap) (kv : string * list PanelRecord) :
  refs_of base (m ++ [kv]) = refs_of base m ++ [(fst kv, base + length m)].
Proof.
  revert base. induction m as [|kv0 m IH]; intros base.
  - simpl. now rewrite Nat.add_0_r.
  - simpl app. rewrite !refs_of_cons, IH. simpl.
    now rewrite Nat.add_succ_r.
Qed.

Lemma Map_get_app (m m' : RefMap) (k : string) :
  Map_get (m ++ m') k
  = match Map_get m k with Some r => Some r | None => Map_get m' k end.
Proof.
  induction m as [|[k0 r0] m IH]; simpl; [reflexivity|].
  destruct (String.eqb k0 k); [reflexivity | exact IH].
Qed.

(** What a turn of the grouping loop finds in the map, and what it does to
    it. *)
Lemma byArea_push_cases (m : AreaMap) (f : PanelRecord) :
  forall base,
    (Map_get (refs_of base m) (area_id f) = None /\
     byArea_push m f = m ++ [(area_id f, [f])])
    \/
    (exists i rows,
       Map_get (refs_of base m) (area_id f) = Some (base + i) /\
       nth_error m i = Some (area_id f, rows) /\
       byArea_push m f = firstn i m ++ (area_id f, rows ++ [f]) :: skipn (S i) m).
Proof.
  induction m as [|[k0 rows0] m IH]; intros base.
  - left. split; reflexivity.
  - rewrite refs_of_cons. simpl.
    destruct (String.eqb_spec k0 (area_id f)) as [->|Hne].
    + right. exists 0, rows0. rewrite Nat.add_0_r. repeat split.
    + destruct (IH (S base)) as [[Hg Hp]|(i & rows & Hg & Hn & Hp)].
      * left. split; [assumption|]. now rewrite Hp.
      * right. exists (S i), rows. rewrite Nat.add_succ_r.
        split; [assumption|]. split; [assumption|]. simpl. now rewrite Hp.
Qed.

Lemma cells_of_update (m : AreaMap) (i : nat) (kv : string * list PanelRecord) :
  firstn i (cells_of m) ++ PanelArray (snd kv) :: skipn (S i) (cells_of m)
  = cells_of (firstn i m ++ kv :: skipn (S i) m).
Proof.
  unfold cells_of. rewrite map_app. cbn [map]. now rewrite <- firstn_map, <- skipn_map.
Qed.

Lemma refs_of_update (base : nat) (m : AreaMap) (i : nat) (k : string)
    (rows rows' : list PanelRecord) :
  nth_error m i = Some (k, rows) ->
  refs_of base (firstn i m ++ (k, rows') :: skipn (S i) m) = refs_of base m.
Proof.
  intros Hn. unfold refs_of.
  assert (Hsplit : m = firstn i m ++ (k, rows) :: skipn (S i) m).
  { rewrite <- (firstn_skipn i m) at 1. f_equal.
    revert i Hn. induction m as [|x m IH]; intros [|i] Hn; simpl in *;
      try discriminate.
    - now injection Hn as ->.
    - now apply IH. }
  assert (Hk : map fst (firstn i m ++ (k, rows') :: skipn (S i) m) = map fst m).
  { transitivity (map fst (firstn i m ++ (k, rows) :: skipn (S i) m));
      [now rewrite !map_app | now rewrite <- Hsplit]. }
  assert (Hl : length (firstn i m ++ (k, rows') :: skipn (S i) m) = length m).
  { transitivity (length (firstn i m ++ (k, rows) :: skipn (S i) m));
      [now rewrite !length_app | now rewrite <- Hsplit]. }
  now rewrite Hk, Hl.
Qed.

Lemma group_turn_spec (h : heap array) (m : AreaMap) (f : PanelRecord) :
  group_turn (refs_of (length h) m) f (h ++ cells_of m)
  = Some (refs_of (length h) (byArea_push m f), h ++ cells_of (byArea_push m f)).
Proof.
  unfold group_turn, Map_has, bind.
  destruct (byArea_push_cases m f (length h))
    as [[Hg ->]|(i & rows & Hg & Hn & ->)]; rewrite Hg.
  - rewrite alloc_fresh, cells_of_length. unfold ret.
    rewrite Map_get_app, Hg; simpl. rewrite String.eqb_refl.
    unfold push_panel, load_panel, bind.
    erewrite load_fresh
      by (rewrite nth_error_app2, cells_of_length, Nat.sub_diag;
          [reflexivity | rewrite cells_of_length; lia]).
    unfold ret. rewrite store_fresh by (rewrite length_app, cells_of_length; simpl; lia).
    rewrite refs_of_snoc; cbn [fst]. do 3 f_equal.
    rewrite firstn_app, skipn_app, cells_of_length, Nat.sub_diag.
    rewrite firstn_all2 by (rewrite cells_of_length; lia).
    rewrite skipn_all2 by (rewrite cells_of_length; lia).
    replace (S (length m) - length m) with 1 by lia. simpl.
    unfold cells_of. rewrite map_app, app_nil_r. reflexivity.
  - unfold ret. rewrite Hg.
    unfold push_panel, load_panel, bind.
    erewrite load_fresh
      by (unfold cells_of; rewrite nth_error_map, Hn; reflexivity).
    unfold ret. rewrite store_fresh
      by (rewrite cells_of_length; apply nth_error_Some; congruence).
    change (snd (area_id f, rows) ++ [f]) with (snd (area_id f, rows ++ [f])).
    rewrite (cells_of_update m i (area_id f, rows ++ [f])).
    now rewrite (refs_of_update _ _ _ _ _ _ Hn).
Qed.

Lemma group_loop_spec (h : heap array) (features : list PanelRecord) :
  forall m,
    for_of_with features (refs_of (length h) m) group_turn (h ++ cells_of m)
    = Some (refs_of (length h) (fold_left byArea_push features m),
            h ++ cells_of (fold_left byArea_push features m)).
Proof.
  induction features as [|f features IH]; intros m; simpl; [reflexivity|].
  unfold bind. rewrite group_turn_spec. apply IH.
Qed.

Lemma update_middle {T} (pre tail : list T) (x v : T) :
  firstn (length pre) (pre ++ x :: tail)
  ++ v :: skipn (S (length pre)) (pre ++ x :: tail)
  = pre ++ v :: tail.
Proof.
  rewrite firstn_app, skipn_app, Nat.sub_diag, firstn_all.
  rewrite skipn_all2 by lia.
  replace (S (length pre) - length pre) with 1 by lia.
  simpl. now rewrite app_nil_r.
Qed.

Lemma nth_error_middle {T} (pre tail : list T) (x : T) :
  nth_error (pre ++ x :: tail) (length pre) = Some x.
Proof. rewrite nth_error_app2 by lia. now rewrite Nat.sub_diag. Qed.

Lemma push_loop_spec (h pre tail : heap array) (es : list EnrichedRecord) :
  forall acc,
    for_of es (push_enriched (length h + length pre))
           (h ++ (pre ++ EnrichedArray acc :: tail))
    = Some (tt, h ++ (pre ++ EnrichedArray (acc ++ es) :: tail)).
Proof.
  induction es as [|e es IH]; intros acc; simpl.
  - now rewrite app_nil_r.
  - unfold bind at 1. unfold push_enriched, load_enriched, bind.
    erewrite load_fresh by apply nth_error_middle.
    unfold ret. rewrite store_fresh by (rewrite !length_app; simpl; lia).
    rewrite update_middle, IH, <- app_assoc. reflexivity.
Qed.

Section HeapEngineFacts.
Variable localeCompare : string -> string -> comparison.

Lemma area_turn_spec (h cells copies : heap array) (acc : list EnrichedRecord)
    (threshold : number) (i : nat) (k : string) (rows : list PanelRecord) :
  nth_error cells i = Some (PanelArray rows) ->
  area_turn localeCompare threshold (length h + length cells) (k, length h + i)
            (h ++ (cells ++ EnrichedArray acc :: copies))
  = Some (tt,
          h ++ (cells
                ++ EnrichedArray
                     (acc ++ enrich_group threshold
                               (Array_sort (by_month localeCompare) rows))
                :: (copies
                    ++ [PanelArray (Array_sort (by_month localeCompare) rows)]))).
Proof.
  intros Hi. unfold area_turn, load_panel, bind; cbn [snd].
  erewrite load_fresh
    by (rewrite nth_error_app1 by (apply nth_error_Some; congruence); exact Hi).
  unfold ret. rewrite alloc_fresh.
  erewrite load_fresh by apply nth_error_middle.
  cbv beta iota.
  rewrite store_fresh by (rewrite !length_app; simpl; lia).
  rewrite update_middle.
  erewrite load_fresh by apply nth_error_middle.
  cbv beta iota. rewrite <- app_assoc. cbn [app].
  apply push_loop_spec.
Qed.

Lemma area_loop_spec (h : heap array) (threshold : number) (m2 : AreaMap) :
  forall (m1 : AreaMap) (acc : list EnrichedRecord) (copies : heap array),
    for_of (refs_of (length h + length m1) m2)
           (area_turn localeCompare threshold
                      (length h + length (cells_of (m1 ++ m2))))
           (h ++ (cells_of (m1 ++ m2) ++ EnrichedArray acc :: copies))
    = Some (tt,
            h ++ (cells_of (m1 ++ m2)
                  ++ EnrichedArray
                       (acc ++ flat_map
                                 (fun kv => enrich_group threshold
                                    (Array_sort (by_month localeCompare) (snd kv)))
                                 m2)
                  :: (copies
                      ++ map (fun kv => PanelArray
                                (Array_sort (by_month localeCompare) (snd kv)))
                             m2))).
Proof.
  induction m2 as [|kv m2 IH]; intros m1 acc copies.
  - simpl. now rewrite !app_nil_r.
  - rewrite refs_of_cons. cbn [for_of]. unfold bind at 1.
    rewrite (area_turn_spec h _ _ _ _ (length m1) (fst kv) (snd kv)).
    + replace (m1 ++ kv :: m2) with ((m1 ++ [kv]) ++ m2)
        by (now rewrite <- app_assoc).
      replace (S (length h + length m1)) with (length h + length (m1 ++ [kv]))
        by (rewrite length_app; simpl; lia).
      rewrite IH. cbn [flat_map map]. now rewrite <- !app_assoc.
    + unfold cells_of. rewrite map_app. cbn [map].
      rewrite <- (length_map (fun kv => PanelArray (snd kv)) m1).
      apply nth_error_middle.
Qed.

Lemma enriched_view_kept (h g : heap array) (r : ref)
    (out : list EnrichedRecord) :
  enriched_view h r = Some out -> enriched_view (h ++ g) r = Some out.
Proof.
  unfold enriched_view. destruct (nth_error h r) as [a|] eqn:Ha; [|discriminate].
  now rewrite (old_cell_kept h g r a Ha).
Qed.

(** Run on a heap that holds the caller's array, the engine returns a
    reference to an array with the records the functional description
    gives, and leaves every array that existed before as it was. *)
Lemma recomputeAlerts_run_spec (h : heap array) (features : option ref)
    (contents : option (list PanelRecord)) (threshold : number) :
  points_to h features contents ->
  exists (result : ref) (fresh : heap array),
    recomputeAlerts_run localeCompare features threshold h
    = Some (result, h ++ fresh) /\
    enriched_view (h ++ fresh) result
    = Some (recomputeAlerts localeCompare contents threshold).
Proof.
  destruct features as [fr|], contents as [fs|]; simpl; try contradiction.
  - intros Hfr.
    assert (Hload : forall k : list PanelRecord -> M array ref,
              bind (load_panel fr) k h = k fs (h ++ [])).
    { intros k. unfold bind, load_panel, bind.
      rewrite <- (app_nil_r h) at 1. now rewrite (load_old h [] fr _ Hfr). }
    rewrite Hload. destruct fs as [|f fs]; cbn [length Nat.eqb].
    + exists fr, []. split; [reflexivity|].
      unfold enriched_view. rewrite app_nil_r, Hfr. reflexivity.
    + set (m := fold_left byArea_push (f :: fs) []).
      exists (length h + length (cells_of m)). eexists. split.
      * unfold bind.
        change (@nil array) with (cells_of []) at 1.
        change (@nil (string * ref)) with (refs_of (length h) []).
        rewrite group_loop_spec. fold m.
        rewrite alloc_fresh.
        pose proof (area_loop_spec h threshold m [] [] []) as Hloop.
        cbn [app length] in Hloop. rewrite Nat.add_0_r in Hloop.
        rewrite Hloop. reflexivity.
      * unfold enriched_view. rewrite nth_error_app2 by lia.
        replace (length h + length (cells_of m) - length h)
          with (length (cells_of m)) by lia.
        rewrite nth_error_middle. f_equal.
        unfold recomputeAlerts, sorted_groups, group_by_area. fold m.
        now rewrite flat_map_concat_map, flat_map_concat_map, map_map.
  - intros _. exists (length h), [EnrichedArray []]. split; [reflexivity|].
    unfold enriched_view. now rewrite nth_error_middle.
Qed.
Lemma points_to_kept (h g : heap array) (features : option ref)
    (contents : option (list PanelRecord)) :
  points_to h features contents -> points_to (h ++ g) features contents.
Proof.
  destruct features, contents; simpl; auto. apply old_cell_kept.
Qed.

(** C9: the result of a call is determined by the contents of the array
    passed and by the threshold: two calls on equal contents and equal
    thresholds return arrays with equal contents, whatever else the heap
    holds at either call; a call leaves the array it was passed as it
    was, so that calling again with the same arguments, after the first
    call, returns equal contents once more and leaves the first result
    untouched. *)
Theorem recomputeAlerts_deterministic (h h' : heap array)
    (features features' : option ref) (contents : option (list PanelRecord))
    (threshold : number) :
  points_to h features contents ->
  points_to h' features' contents ->
  let out := recomputeAlerts localeCompare contents threshold in
  (exists r1 h1 r1' h1',
     recomputeAlerts_run localeCompare features threshold h = Some (r1, h1) /\
     recomputeAlerts_run localeCompare features' threshold h' = Some (r1', h1') /\
     enriched_view h1 r1 = Some out /\
     enriched_view h1' r1' = Some out) /\
  (exists r1 h1 r2 h2,
     recomputeAlerts_run localeCompare features threshold h = Some (r1, h1) /\
     points_to h1 features contents /\
     recomputeAlerts_run localeCompare features threshold h1 = Some (r2, h2) /\
     enriched_view h1 r1 = Some out /\
     enriched_view h2 r2 = Some out /\
     enriched_view h2 r1 = Some out).
Proof.
  intros Hp Hp' out.
  destruct (recomputeAlerts_run_spec h features contents threshold Hp)
    as (r1 & g1 & Hrun1 & Hv1).
  destruct (recomputeAlerts_run_spec h' features' contents threshold Hp')
    as (r1' & g1' & Hrun1' & Hv1').
  pose proof (points_to_kept h g1 _ _ Hp) as Hp1.
  destruct (recomputeAlerts_run_spec (h ++ g1) features contents threshold Hp1)
    as (r2 & g2 & Hrun2 & Hv2).
  split.
  - exists r1, (h ++ g1), r1', (h' ++ g1'). auto.
  - exists r1, (h ++ g1), r2, ((h ++ g1) ++ g2).
    repeat split; auto. now apply enriched_view_kept.
Qed.
End HeapEngineFacts.

(** ** The order of binary64 values *)

Section FloatOrder.
Local Open Scope Z_scope.

Lemma digits2_pos_bounds (m : positive) :
  2 ^ (Zpos (digits2_pos m) - 1) <= Zpos m < 2 ^ Zpos (digits2_pos m).
Proof.
  induction m as [m IH|m IH|]; simpl digits2_pos.
  - rewrite Pos2Z.inj_succ.
    replace (Z.succ (Zpos (digits2_pos m)) - 1) with (Z.succ (Zpos (digits2_pos m) - 1)) by lia.
    rewrite !Z.pow_succ_r by lia. lia.
  - rewrite Pos2Z.inj_succ.
    replace (Z.succ (Zpos (digits2_pos m)) - 1) with (Z.succ (Zpos (digits2_pos m) - 1)) by lia.
    rewrite !Z.pow_succ_r by lia. lia.
  - simpl. lia.
Qed.

Lemma bounded_inv (m : positive) (e : Z) :
  bounded prec emax m e = true ->
  -1074 <= e <= 971 /\ Zpos (digits2_pos m) <= 53 /\
  (-1074 < e -> Zpos (digits2_pos m) = 53).
Proof.
  unfold bounded, canonical_mantissa, fexp, SpecFloat.emin, prec, emax.
  rewrite andb_true_iff, Z.eqb_eq, Z.leb_le. lia.
Qed.

Lemma finite_rank_bounds (m : positive) (e : Z) :
  bounded prec emax m e = true ->
  0 < Zpos m * 2 ^ (e + 1074) < 2 ^ 2100.
Proof.
  intros Hb. apply bounded_inv in Hb as (He & Hd & _).
  pose proof (digits2_pos_bounds m) as [_ Hm].
  assert (Hp : 0 < 2 ^ (e + 1074)) by (apply Z.pow_pos_nonneg; lia).
  split; [lia|].
  assert (Hm' : Zpos m < 2 ^ 53).
  { eapply Z.lt_le_trans; [exact Hm|]. apply Z.pow_le_mono_r; lia. }
  assert (He' : 2 ^ (e + 1074) <= 2 ^ 2045) by (apply Z.pow_le_mono_r; lia).
  replace (2 ^ 2100) with (2 ^ 53 * 2 ^ 2047) by (rewrite <- Z.pow_add_r; [reflexivity|lia|lia]).
  assert (2 ^ 2045 < 2 ^ 2047) by (apply Z.pow_lt_mono_r; lia).
  assert (0 < 2 ^ 53) by (apply Z.pow_pos_nonneg; lia).
  nia.
Qed.

Lemma finite_rank_lt (m1 m2 : positive) (e1 e2 : Z) :
  bounded prec emax m1 e1 = true ->
  bounded prec emax m2 e2 = true ->
  e1 < e2 ->
  Zpos m1 * 2 ^ (e1 + 1074) < Zpos m2 * 2 ^ (e2 + 1074).
Proof.
  intros H1 H2 Hlt.
  apply bounded_inv in H1 as (He1 & Hd1 & _).
  apply bounded_inv in H2 as (He2 & _ & Hd2).
  pose proof (digits2_pos_bounds m1) as [_ Hm1].
  pose proof (digits2_pos_bounds m2) as [Hm2 _].
  rewrite Hd2 in Hm2 by lia. change (53 - 1) with 52 in Hm2.
  assert (Hm1' : Zpos m1 < 2 ^ 53).
  { eapply Z.lt_le_trans; [exact Hm1|]. apply Z.pow_le_mono_r; lia. }
  replace (e2 + 1074) with ((e1 + 1074) + (e2 - e1)) by lia.
  rewrite (Z.pow_add_r 2 (e1 + 1074) (e2 - e1)) by lia.
  assert (Hp : 0 < 2 ^ (e1 + 1074)) by (apply Z.pow_pos_nonneg; lia).
  assert (Hk : 2 ^ 1 <= 2 ^ (e2 - e1)) by (apply Z.pow_le_mono_r; lia).
  change (2 ^ 1) with 2 in Hk.
  change (2 ^ 53) with (2 * 2 ^ 52) in Hm1'.
  set (K := 2 ^ (e2 - e1)) in *. set (P := 2 ^ (e1 + 1074)) in *.
  assert (HB : 0 < 2 ^ 52) by reflexivity.
  set (B := 2 ^ 52) in *.
  assert (B * 2 <= Zpos m2 * K) by (apply Z.mul_le_mono_nonneg; lia).
  assert (Zpos m1 < Zpos m2 * K) by lia.
  rewrite Z.mul_comm, (Z.mul_comm (Zpos m2)), <- Z.mul_assoc.
  apply Z.mul_lt_mono_pos_l; lia.
Qed.

Lemma SFcompare_finite_pos (m1 m2 : positive) (e1 e2 : Z) :
  bounded prec emax m1 e1 = true ->
  bounded prec emax m2 e2 = true ->
  match e1 ?= e2 with
  | Lt => Lt
  | Gt => Gt
  | Eq => Pos.compare_cont Eq m1 m2
  end
  = (Zpos m1 * 2 ^ (e1 + 1074) ?= Zpos m2 * 2 ^ (e2 + 1074)).
Proof.
  intros H1 H2. destruct (Z.compare_spec e1 e2) as [->|Hlt|Hgt].
  - pose proof (bounded_inv _ _ H2) as (He & _ & _).
    assert (Hp : 0 < 2 ^ (e2 + 1074)) by (apply Z.pow_pos_nonneg; lia).
    change (Pos.compare_cont Eq m1 m2) with (Zpos m1 ?= Zpos m2).
    destruct (Z.compare_spec (Zpos m1) (Zpos m2)) as [E|L|G]; symmetry.
    + rewrite E. apply Z.compare_refl.
    + apply Z.compare_lt_iff. now apply Z.mul_lt_mono_pos_r.
    + apply Z.compare_gt_iff. now apply Z.mul_lt_mono_pos_r.
  - symmetry. apply Z.compare_lt_iff. now apply finite_rank_lt.
  - symmetry. apply Z.compare_gt_iff. now apply finite_rank_lt.
Qed.

Ltac cmp_solve :=
  match goal with
  | |- (_ ?= _) = Lt => apply Z.compare_lt_iff; lia
  | |- (_ ?= _) = Gt => apply Z.compare_gt_iff; lia
  | |- (_ ?= _) = Eq => apply Z.compare_eq_iff; lia
  end.

(** On valid values other than [NaN], the comparison of the format is the
    comparison of the positions on the integer line. *)
Lemma SFcompare_rank (a b : spec_float) :
  valid_binary a = true -> valid_binary b = true ->
  SFis_nan a = false -> SFis_nan b = false ->
  SFcompare a b = Some (SFrank a ?= SFrank b).
Proof.
  intros Va Vb Na Nb.
  assert (Hinf : 0 < 2 ^ 2100) by (apply Z.pow_pos_nonneg; lia).
  destruct a as [sa|sa| |sa ma ea], b as [sb|sb| |sb mb eb];
    try discriminate; simpl in Va, Vb;
    cbv beta iota delta [SFrank SFcompare];
    try pose proof (finite_rank_bounds _ _ Va) as Ba;
    try pose proof (finite_rank_bounds _ _ Vb) as Bb.
  1-8: destruct sa, sb; cbn [cond_Zopp]; f_equal; try reflexivity; symmetry; cmp_solve.
    f_equal. destruct sa, sb; cbn [cond_Zopp].
    + rewrite Z.compare_opp. rewrite <- (SFcompare_finite_pos mb ma eb ea Vb Va).
      rewrite (Z.compare_antisym eb ea), (Pos.compare_cont_antisym).
      destruct (eb ?= ea); simpl; try reflexivity.
    + symmetry; cmp_solve.
    + symmetry; cmp_solve.
    + now apply SFcompare_finite_pos.
Qed.

(** *** Rounding keeps the sign *)

Lemma shr_1_m (mrs : shr_record) :
  0 <= shr_m mrs -> shr_m (shr_1 mrs) = shr_m mrs / 2.
Proof.
  destruct mrs as [m r s]; simpl. intros Hm.
  destruct m as [|[p|p|]|p]; cbn [shr_m]; try lia; try reflexivity.
  - apply Z.div_unique with 1; lia.
  - apply Z.div_unique with 0; lia.
Qed.

Lemma iter_pos_shr_1_m (p : positive) :
  forall mrs, 0 <= shr_m mrs ->
    shr_m (iter_pos shr_1 p mrs) = shr_m mrs / 2 ^ Zpos p.
Proof.
  induction p as [p IH|p IH|]; intros mrs Hm; simpl iter_pos.
  - assert (H1 : 0 <= shr_m (shr_1 mrs))
      by (rewrite shr_1_m by assumption; apply Z.div_pos; lia).
    assert (H2 : 0 <= shr_m (iter_pos shr_1 p (shr_1 mrs)))
      by (rewrite IH by assumption; apply Z.div_pos; [lia|apply Z.pow_pos_nonneg; lia]).
    rewrite IH, IH, shr_1_m by assumption.
    rewrite !Z.div_div by (try apply Z.pow_pos_nonneg; lia).
    f_equal.
    assert (E : Zpos p~1 = 1 + Zpos p + Zpos p) by lia.
    rewrite E, !Z.pow_add_r by lia. change (2 ^ 1) with 2. lia.
  - assert (H2 : 0 <= shr_m (iter_pos shr_1 p mrs))
      by (rewrite IH by assumption; apply Z.div_pos; [lia|apply Z.pow_pos_nonneg; lia]).
    rewrite IH, IH by assumption.
    rewrite !Z.div_div by (try apply Z.pow_pos_nonneg; lia).
    f_equal.
    assert (E : Zpos p~0 = Zpos p + Zpos p) by lia.
    rewrite E, Z.pow_add_r by lia. reflexivity.
  - now apply shr_1_m.
Qed.

Lemma shr_record_of_loc_m (m : Z) (l : location) :
  shr_m (shr_record_of_loc m l) = m.
Proof. destruct l as [|[| |]]; reflexivity. Qed.

(** Shifting a positive mantissa to its place in the format leaves it
    positive, and the exponent stays in range. *)
Lemma shr_fexp_pos (m e : Z) (l : location) :
  1 <= m -> -1074 <= e ->
  1 <= shr_m (fst (shr_fexp prec emax m e l)) /\
  -1074 <= snd (shr_fexp prec emax m e l).
Proof.
  intros Hm He. unfold shr_fexp, shr.
  destruct m as [|p|p]; try lia. cbn [Zdigits2].
  pose proof (digits2_pos_bounds p) as [Hlo _].
  set (d := Zpos (digits2_pos p)) in *.
  assert (Hd : 1 <= d) by (unfold d; lia).
  unfold fexp, SpecFloat.emin, prec, emax.
  destruct (Z.max (d + e - 53) (3 - 1024 - 53) - e) as [|n|n] eqn:Hn;
    cbn [fst snd]; rewrite ?shr_record_of_loc_m; try lia.
  rewrite iter_pos_shr_1_m by (rewrite shr_record_of_loc_m; lia).
  rewrite shr_record_of_loc_m. split; [|lia].
  assert (Hnd : Zpos n = d - 53) by lia.
  apply Z.div_le_lower_bound; [apply Z.pow_pos_nonneg; lia|].
  rewrite Z.mul_1_r. eapply Z.le_trans; [|exact Hlo].
  apply Z.pow_le_mono_r; lia.
Qed.

Lemma round_nearest_even_ge (m : Z) (l : location) :
  m <= round_nearest_even m l.
Proof.
  unfold round_nearest_even. destruct l as [|[| |]]; try lia.
  destruct (Z.even m); lia.
Qed.

Lemma binary_round_aux_sign (s : bool) (m e : Z) (l : location) :
  1 <= m -> -1074 <= e ->
  SFsign (binary_round_aux prec emax s m e l) = if s then -1 else 1.
Proof.
  intros Hm He. unfold binary_round_aux.
  destruct (shr_fexp_pos m e l Hm He) as [H1 H2].
  destruct (shr_fexp prec emax m e l) as [mrs' e']. cbn [fst snd] in H1, H2.
  pose proof (round_nearest_even_ge (shr_m mrs') (loc_of_shr_record mrs')) as Hr.
  destruct (shr_fexp_pos (round_nearest_even (shr_m mrs') (loc_of_shr_record mrs'))
              e' loc_Exact) as [H3 H4]; [lia | lia |].
  destruct (shr_fexp prec emax _ e' loc_Exact) as [mrs'' e''].
  cbn [fst snd] in H3, H4.
  destruct (shr_m mrs'') as [|q|q]; try lia.
  destruct (e'' <=? emax - prec); reflexivity.
Qed.

Lemma Pos_iter_xO (m d : positive) :
  Zpos (Pos.iter xO m d) = Zpos m * 2 ^ Zpos d.
Proof.
  induction d as [|d IH] using Pos.peano_ind.
  - simpl. lia.
  - rewrite Pos.iter_succ, Pos2Z.inj_xO, IH, Pos2Z.inj_succ, Z.pow_succ_r by lia.
    lia.
Qed.

Lemma shl_align_value (m : positive) (e e' : Z) :
  Zpos (fst (shl_align m e e')) * 2 ^ (snd (shl_align m e e') + 1074)
  = Zpos m * 2 ^ (e + 1074)
  \/ e' + 1074 < 0.
Proof.
  unfold shl_align. destruct (e' - e) as [|d|d] eqn:Hd; cbn [fst snd]; auto.
  destruct (Z_lt_le_dec (e' + 1074) 0) as [Hneg|Hpos]; [now right | left].
  rewrite Pos_iter_xO.
  replace (e + 1074) with (Zpos d + (e' + 1074)) by lia.
  rewrite (Z.pow_add_r 2 (Zpos d) (e' + 1074)) by lia. ring.
Qed.

Lemma shl_align_exp (m : positive) (e e' : Z) :
  -1074 <= e -> -1074 <= e' -> -1074 <= snd (shl_align m e e').
Proof.
  intros He He'. unfold shl_align.
  destruct (e' - e); cbn [snd]; assumption.
Qed.

Lemma binary_round_sign (s : bool) (m : positive) (e : Z) :
  -1074 <= e ->
  SFsign (binary_round prec emax s m e) = if s then -1 else 1.
Proof.
  intros He. unfold binary_round.
  assert (Hx : -1074 <= snd (shl_align m e (fexp prec emax (Zpos (digits2_pos m) + e)))).
  { apply shl_align_exp; [assumption|].
    unfold fexp, SpecFloat.emin, prec, emax. lia. }
  destruct (shl_align m e _) as [mz ez]. cbn [snd] in Hx.
  apply binary_round_aux_sign; [lia | assumption].
Qed.

Lemma binary_normalize_sign (m e : Z) :
  -1074 <= e ->
  SFsign (binary_normalize prec emax m e false) = Z.sgn m.
Proof.
  intros He. destruct m as [|p|p]; simpl binary_normalize.
  - reflexivity.
  - now rewrite binary_round_sign.
  - now rewrite binary_round_sign.
Qed.

Lemma shl_align_snd (m : positive) (e e' : Z) :
  e' <= e -> snd (shl_align m e e') = e'.
Proof.
  intros Hle. unfold shl_align.
  destruct (e' - e) as [|d|d] eqn:Hd; cbn [snd]; lia.
Qed.

(** The sign of a difference is the order of the positions of its operands;
    an undefined difference, of two equal infinities, counts as [0]. *)
Lemma SFsub_sign (a b : spec_float) :
  valid_binary a = true -> valid_binary b = true ->
  SFis_nan a = false -> SFis_nan b = false ->
  SFsign (SF64sub b a) = Z.sgn (SFrank b - SFrank a).
Proof.
  intros Va Vb Na Nb.
  assert (Hinf : 0 < 2 ^ 2100) by (apply Z.pow_pos_nonneg; lia).
  destruct a as [sa|sa| |sa ma ea], b as [sb|sb| |sb mb eb];
    try discriminate; simpl in Va, Vb;
    try pose proof (finite_rank_bounds _ _ Va) as Ba;
    try pose proof (finite_rank_bounds _ _ Vb) as Bb.
  1-8: unfold SF64sub; cbv beta iota delta [SFsub SFrank];
       destruct sa, sb; cbn [SFsign cond_Zopp negb]; symmetry;
       first [ apply Z.sgn_pos_iff; lia
             | apply Z.sgn_neg_iff; lia
             | apply Z.sgn_null_iff; lia ].
  unfold SF64sub. cbv beta iota delta [SFsub SFrank].
  pose proof (bounded_inv _ _ Va) as (Hea & _ & _).
  pose proof (bounded_inv _ _ Vb) as (Heb & _ & _).
  set (ez := Z.min eb ea).
  rewrite binary_normalize_sign by (unfold ez; lia).
  assert (Hp : 0 < 2 ^ (ez + 1074)) by (apply Z.pow_pos_nonneg; unfold ez; lia).
  destruct (shl_align_value ma ea ez) as [Ha|Ha]; [|unfold ez in Ha; lia].
  destruct (shl_align_value mb eb ez) as [Hb|Hb]; [|unfold ez in Hb; lia].
  rewrite (shl_align_snd ma ea ez) in Ha by (unfold ez; lia).
  rewrite (shl_align_snd mb eb ez) in Hb by (unfold ez; lia).
  rewrite <- Ha, <- Hb.
  set (ma' := Zpos (fst (shl_align ma ea ez))).
  set (mb' := Zpos (fst (shl_align mb eb ez))).
  replace (cond_Zopp sb (mb' * 2 ^ (ez + 1074)) - cond_Zopp sa (ma' * 2 ^ (ez + 1074)))
    with ((cond_Zopp sb mb' - cond_Zopp sa ma') * 2 ^ (ez + 1074))
    by (destruct sa, sb; cbn [cond_Zopp]; ring).
  rewrite Z.sgn_mul, (Z.sgn_pos (2 ^ (ez + 1074))) by assumption.
  now rewrite Z.mul_1_r.
Qed.

(** *** Primitive floats *)

Lemma is_nan_Prim2SF (x : float) :
  is_nan x = SFis_nan (Prim2SF x).
Proof.
  unfold is_nan. rewrite FloatAxioms.eqb_spec. unfold SFeqb.
  pose proof (Prim2SF_valid x) as Hv.
  destruct (Prim2SF x) as [s|s| |s m e] eqn:Hx; cbn [SFis_nan].
  - reflexivity.
  - destruct s; reflexivity.
  - reflexivity.
  - rewrite (SFcompare_rank _ _ Hv Hv eq_refl eq_refl), Z.compare_refl.
    reflexivity.
Qed.

Lemma ltb_rank (x y : float) :
  is_nan x = false -> is_nan y = false ->
  PrimFloat.ltb x y = (rank x <? rank y).
Proof.
  rewrite !is_nan_Prim2SF. intros Nx Ny.
  rewrite FloatAxioms.ltb_spec. unfold SFltb, rank.
  rewrite (SFcompare_rank _ _ (Prim2SF_valid x) (Prim2SF_valid y) Nx Ny).
  unfold Z.ltb. destruct (_ ?= _); reflexivity.
Qed.

Lemma leb_rank (x y : float) :
  is_nan x = false -> is_nan y = false ->
  PrimFloat.leb x y = (rank x <=? rank y).
Proof.
  rewrite !is_nan_Prim2SF. intros Nx Ny.
  rewrite FloatAxioms.leb_spec. unfold SFleb, rank.
  rewrite (SFcompare_rank _ _ (Prim2SF_valid x) (Prim2SF_valid y) Nx Ny).
  unfold Z.leb. destruct (_ ?= _); reflexivity.
Qed.

Lemma eqb_rank (x y : float) :
  is_nan x = false -> is_nan y = false ->
  PrimFloat.eqb x y = (rank x =? rank y).
Proof.
  rewrite !is_nan_Prim2SF. intros Nx Ny.
  rewrite FloatAxioms.eqb_spec. unfold SFeqb, rank.
  rewrite (SFcompare_rank _ _ (Prim2SF_valid x) (Prim2SF_valid y) Nx Ny).
  unfold Z.eqb. destruct (SFrank (Prim2SF x)), (SFrank (Prim2SF y)); simpl; try reflexivity.
  - destruct (_ ?= _)%positive eqn:E; symmetry;
      [apply Pos.eqb_eq; now apply Pos.compare_eq
      | apply Pos.eqb_neq; intros ->; rewrite Pos.compare_refl in E; discriminate
      | apply Pos.eqb_neq; intros ->; rewrite Pos.compare_refl in E; discriminate].
  - destruct (CompOpp (_ ?= _)%positive) eqn:E; symmetry.
    + apply Pos.eqb_eq. destruct (Pos.compare_spec p p0); try discriminate. assumption.
    + apply Pos.eqb_neq; intros ->; rewrite Pos.compare_refl in E; discriminate.
    + apply Pos.eqb_neq; intros ->; rewrite Pos.compare_refl in E; discriminate.
Qed.

Lemma SFltb_sign_l (r : spec_float) :
  SFltb r (S754_zero false) = (SFsign r <? 0).
Proof. destruct r as [s|[|]| |[|] m e]; reflexivity. Qed.

Lemma SFltb_sign_r (r : spec_float) :
  SFltb (S754_zero false) r = (0 <? SFsign r).
Proof. destruct r as [s|[|]| |[|] m e]; reflexivity. Qed.

(** The sign of [y - x], as a sort callback returns it, orders [y] and [x]
    as their positions on the integer line are. *)
Lemma SortCompare_sub (x y : float) :
  is_nan x = false -> is_nan y = false ->
  SortCompare (y - x)%float = (rank y ?= rank x).
Proof.
  rewrite !is_nan_Prim2SF. intros Nx Ny.
  unfold SortCompare. rewrite !FloatAxioms.ltb_spec, FloatAxioms.sub_spec.
  change (Prim2SF 0%float) with (S754_zero false).
  rewrite SFltb_sign_l, SFltb_sign_r.
  rewrite (SFsub_sign _ _ (Prim2SF_valid x) (Prim2SF_valid y) Nx Ny).
  fold (rank x) (rank y).
  destruct (Z.compare_spec (rank y) (rank x)) as [E|L|G].
  - rewrite E, Z.sub_diag. reflexivity.
  - rewrite (proj2 (Z.sgn_neg_iff _)) by lia. reflexivity.
  - rewrite (proj2 (Z.sgn_pos_iff _)) by lia. reflexivity.
Qed.

End FloatOrder.

(** ** The ranking selector *)

Lemma filter_filter {A} (p q : A -> bool) (l : list A) :
  filter q (filter p l) = filter (fun x => p x && q x) l.
Proof.
  induction l as [|x l IH]; simpl; [reflexivity|].
  destruct (p x); simpl; [|exact IH].
  destruct (q x); now rewrite IH.
Qed.

Lemma StronglySorted_weaken {A} (P Q : A -> A -> Prop) (l : list A) :
  (forall x y, In x l -> In y l -> P x y -> Q x y) ->
  StronglySorted P l -> StronglySorted Q l.
Proof.
  intros HPQ Hs. induction Hs as [|x l Hs IH Hx]; constructor.
  - apply IH. intros u v Hu Hv. apply HPQ; now right.
  - rewrite Forall_forall in Hx |- *. intros y Hy.
    apply HPQ; [now left | now right | now apply Hx].
Qed.

Lemma firstn_In {A} (n : nat) (l : list A) (x : A) :
  In x (firstn n l) -> In x l.
Proof.
  intros Hx. rewrite <- (firstn_skipn n l). apply in_or_app. now left.
Qed.

Section RankingFacts.
Context {R : Type} `{Ranked R}.
Variable metric : string.
Variable filterAlertsOnly : bool.

Lemma has_metric_inv (f : R) :
  has_metric metric f = true ->
  exists v, get_metric f metric = Some v /\ Number_isNaN v = false.
Proof.
  unfold has_metric. destruct (get_metric f metric) as [v|]; [|discriminate].
  intros Hv. exists v. split; [reflexivity|]. now apply negb_true_iff.
Qed.

Lemma by_metric_desc_rank (f g : R) (x y : number) :
  get_metric f metric = Some x -> Number_isNaN x = false ->
  get_metric g metric = Some y -> Number_isNaN y = false ->
  by_metric_desc metric f g = (rank y ?= rank x)%Z.
Proof.
  intros Hf Nx Hg Ny. unfold by_metric_desc. rewrite Hf, Hg. simpl.
  now apply SortCompare_sub.
Qed.

(** On records that carry a metric value the callback of the selector is
    consistent. *)
Lemma by_metric_desc_consistent (l : list R) :
  (forall f, In f l -> has_metric metric f = true) ->
  consistent_on (by_metric_desc metric) l.
Proof.
  intros Hl. split.
  - intros f g Hf Hg.
    destruct (has_metric_inv f (Hl f Hf)) as (x & Ef & Nx).
    destruct (has_metric_inv g (Hl g Hg)) as (y & Eg & Ny).
    rewrite (by_metric_desc_rank g f y x), (by_metric_desc_rank f g x y) by assumption.
    apply Z.compare_antisym.
  - intros f g k Hf Hg Hk.
    destruct (has_metric_inv f (Hl f Hf)) as (x & Ef & Nx).
    destruct (has_metric_inv g (Hl g Hg)) as (y & Eg & Ny).
    destruct (has_metric_inv k (Hl k Hk)) as (z & Ek & Nz).
    rewrite (by_metric_desc_rank f g x y), (by_metric_desc_rank g k y z),
      (by_metric_desc_rank f k x z) by assumption.
    rewrite !Z.compare_gt_iff. lia.
Qed.

Lemma not_after_metric_desc (f g : R) :
  has_metric metric f = true -> has_metric metric g = true ->
  not_after (by_metric_desc metric) f g -> metric_desc metric f g.
Proof.
  intros Hf Hg.
  destruct (has_metric_inv f Hf) as (x & Ef & Nx).
  destruct (has_metric_inv g Hg) as (y & Eg & Ny).
  unfold not_after. rewrite (by_metric_desc_rank f g x y) by assumption.
  intros Hle. exists x, y. repeat split; try assumption.
  rewrite leb_rank by assumption. apply Z.leb_le.
  rewrite Z.compare_gt_iff in Hle. lia.
Qed.

Lemma tied_same_metric (f g : R) :
  has_metric metric f = true -> has_metric metric g = true ->
  tied (by_metric_desc metric) f g = same_metric metric f g.
Proof.
  intros Hf Hg.
  destruct (has_metric_inv f Hf) as (x & Ef & Nx).
  destruct (has_metric_inv g Hg) as (y & Eg & Ny).
  unfold tied, same_metric.
  rewrite (by_metric_desc_rank f g x y), Ef, Eg by assumption.
  rewrite eqb_rank by assumption.
  rewrite Z.eqb_compare, (Z.compare_antisym (rank x) (rank y)).
  destruct (rank x ?= rank y)%Z; reflexivity.
Qed.

Lemma is_alert_iff (f : R) :
  is_alert f = true <-> exists lvl, get_alert_level f = Some lvl /\ lvl <> none.
Proof.
  unfold is_alert. destruct (get_alert_level f) as [lvl|].
  - split.
    + intros Hl. exists lvl. split; [reflexivity|]. intros ->. discriminate.
    + intros (l & [= <-] & Hne). destruct lvl; try reflexivity. now elim Hne.
  - split; [discriminate|]. intros (l & Habs & _). discriminate.
Qed.

Lemma kept_by_iff (f : R) :
  kept_by metric filterAlertsOnly f = true <->
  (exists v, get_metric f metric = Some v /\ Number_isNaN v = false) /\
  (filterAlertsOnly = true ->
   exists lvl, get_alert_level f = Some lvl /\ lvl <> none).
Proof.
  unfold kept_by, passes_alert_filter.
  rewrite andb_true_iff, orb_true_iff, negb_true_iff, is_alert_iff. split.
  - intros [Hm Ha]. split; [now apply has_metric_inv|].
    intros Hflag. destruct Ha as [Ha|Ha]; [congruence | exact Ha].
  - intros [(v & Hv & Nv) Ha]. split.
    + unfold has_metric. rewrite Hv. now apply negb_true_iff.
    + destruct filterAlertsOnly; [right; now apply Ha | now left].
Qed.

(** C6: the selector keeps the records whose metric value is a number
    other than [NaN] and, when only alerts are wanted, whose level is
    present and not [none]; it sorts what it kept by descending metric
    value, records with equal values staying in input order, and returns
    the first 10.  So the result has at most 10 records, each with a
    numeric metric value and, when only alerts are wanted, a level other
    than [none].  The array passed, like every array that existed before
    the call, is left as it was. *)
Theorem rankedTopN_spec (source : list R) :
  let kept := filter (kept_by metric filterAlertsOnly) source in
  let result := rankedTopN metric filterAlertsOnly source in
  (forall f,
     kept_by metric filterAlertsOnly f = true <->
     (exists v, get_metric f metric = Some v /\ Number_isNaN v = false) /\
     (filterAlertsOnly = true ->
      exists lvl, get_alert_level f = Some lvl /\ lvl <> none)) /\
  (exists sorted,
     result = firstn 10 sorted /\
     Permutation sorted kept /\
     StronglySorted (metric_desc metric) sorted /\
     (forall f, In f kept ->
        filter (same_metric metric f) sorted = filter (same_metric metric f) kept)) /\
  length result <= 10 /\
  (forall f, In f result ->
     In f source /\
     exists v, get_metric f metric = Some v /\ Number_isNaN v = false) /\
  (filterAlertsOnly = true ->
   forall f, In f result ->
     exists lvl, get_alert_level f = Some lvl /\ lvl <> none) /\
  (forall (h : heap (list R)) (source_ref : ref),
     nth_error h source_ref = Some source ->
     exists (result_ref : ref) (h' : heap (list R)),
       rankedTopN_run metric filterAlertsOnly source_ref h = Some (result_ref, h') /\
       nth_error h' result_ref = Some result /\
       forall r a, nth_error h r = Some a -> nth_error h' r = Some a).
Proof.
  intros kept result.
  set (sorted := Array_sort (by_metric_desc metric) kept).
  assert (Hres : result = firstn 10 sorted).
  { unfold result, rankedTopN, slice, sorted, kept, kept_by.
    now rewrite filter_filter. }
  assert (Hperm : Permutation sorted kept) by apply Array_sort_perm.
  assert (Hkept : forall f, In f kept ->
            In f source /\ has_metric metric f = true
            /\ passes_alert_filter filterAlertsOnly f = true).
  { intros f Hf. apply filter_In in Hf as [Hin Hk].
    apply andb_true_iff in Hk. tauto. }
  assert (Hsorted_kept : forall f, In f sorted -> In f kept)
    by (intros f; apply Permutation_in, Hperm).
  assert (Hresult : forall f, In f result -> In f kept).
  { intros f Hf. rewrite Hres in Hf. apply Hsorted_kept. eapply firstn_In, Hf. }
  assert (Hcons : forall l, incl l kept -> consistent_on (by_metric_desc metric) l).
  { intros l Hl. apply by_metric_desc_consistent. intros f Hf.
    now apply Hkept, Hl. }
  split; [|split; [|split; [|split; [|split]]]].
  - intros f. apply kept_by_iff.
  - exists sorted. repeat split; try assumption.
    + apply (StronglySorted_weaken (not_after (by_metric_desc metric))).
      * intros f g Hf Hg. apply not_after_metric_desc;
          now apply Hkept, Hsorted_kept.
      * apply Array_sort_sorted, Hcons, incl_refl.
    + intros f Hf.
      rewrite <- (filter_ext_in (tied (by_metric_desc metric) f) (same_metric metric f) sorted),
              <- (filter_ext_in (tied (by_metric_desc metric) f) (same_metric metric f) kept).
      * apply Array_sort_stable. apply Hcons.
        intros g [<-|Hg]; assumption.
      * intros g Hg. apply tied_same_metric; now apply Hkept.
      * intros g Hg. apply tied_same_metric; [|apply Hkept, Hsorted_kept, Hg].
        now apply Hkept.
  - rewrite Hres. rewrite length_firstn. lia.
  - intros f Hf. destruct (Hkept f (Hresult f Hf)) as (Hin & Hm & _).
    split; [assumption | now apply has_metric_inv].
  - intros Hflag f Hf. destruct (Hkept f (Hresult f Hf)) as (_ & _ & Hp).
    unfold passes_alert_filter, is_alert in Hp. rewrite Hflag in Hp. simpl in Hp.
    destruct (get_alert_level f) as [lvl|]; [|discriminate].
    exists lvl. split; [reflexivity|]. intros ->. discriminate.
  - intros h source_ref Hsrc.
    destruct (rankedTopN_run_spec metric filterAlertsOnly h source_ref source Hsrc)
      as (r & fresh & Hrun & Hr).
    exists r, (h ++ fresh). repeat split; try assumption.
    intros r0 a. apply old_cell_kept.
Qed.
End RankingFacts.

(** * More of the alert engine *)

Lemma map_flat_map {A B C} (g : B -> C) (G : A -> list B) (l : list A) :
  map g (flat_map G l) = flat_map (fun x => map g (G x)) l.
Proof.
  induction l as [|x l IH]; simpl; [reflexivity|].
  now rewrite map_app, IH.
Qed.

Lemma filter_flat_map {A B} (p : B -> bool) (G : A -> list B) (l : list A) :
  filter p (flat_map G l) = flat_map (fun x => filter p (G x)) l.
Proof.
  induction l as [|x l IH]; simpl; [reflexivity|].
  now rewrite filter_app, IH.
Qed.

Lemma filter_map_swap {A B} (p : B -> bool) (g : A -> B) (l : list A) :
  filter p (map g l) = map g (filter (fun x => p (g x)) l).
Proof.
  induction l as [|x l IH]; simpl; [reflexivity|].
  destruct (p (g x)); simpl; now rewrite IH.
Qed.

Lemma Permutation_filter {A} (p : A -> bool) (l l' : list A) :
  Permutation l l' -> Permutation (filter p l) (filter p l').
Proof.
  induction 1 as [|x l l' _ IH|x y l|l l' l'' _ IH1 _ IH2]; simpl.
  - constructor.
  - destruct (p x); [now constructor | assumption].
  - destruct (p x), (p y); try apply Permutation_refl.
    apply perm_swap.
  - now transitivity (filter p l').
Qed.

Lemma Permutation_flat_map_pointwise {A B} (G G' : A -> list B) (l : list A) :
  (forall x, In x l -> Permutation (G x) (G' x)) ->
  Permutation (flat_map G l) (flat_map G' l).
Proof.
  induction l as [|x l IH]; simpl; intros HG; [constructor|].
  apply Permutation_app.
  - apply HG. now left.
  - apply IH. intros y Hy. apply HG. now right.
Qed.

Lemma flat_map_ext_in {A B} (G G' : A -> list B) (l : list A) :
  (forall x, In x l -> G x = G' x) -> flat_map G l = flat_map G' l.
Proof.
  induction l as [|x l IH]; simpl; intros HG; [reflexivity|].
  rewrite (HG x (or_introl eq_refl)), IH; [reflexivity|].
  intros y Hy. apply HG. now right.
Qed.

(** The records of an array, taken area by area, are the records of the
    array. *)
Lemma partition_by_area_perm (keys : list string) :
  forall features : list PanelRecord,
    NoDup keys ->
    (forall f, In f features -> In (area_id f) keys) ->
    Permutation (flat_map (fun a => filter (of_area a) features) keys) features.
Proof.
  induction keys as [|k keys IH]; intros features Hnd Hin.
  - destruct features as [|f features]; [constructor|].
    destruct (Hin f (or_introl eq_refl)).
  - inversion Hnd as [|? ? Hk Hnd']; subst. simpl.
    set (others := filter (fun f => negb (of_area k f)) features).
    transitivity (filter (of_area k) features ++ others);
      [|apply filter_partition_perm].
    apply Permutation_app_head.
    rewrite (flat_map_ext_in (fun a => filter (of_area a) features)
                             (fun a => filter (of_area a) others)).
    + apply IH; [assumption|].
      intros f Hf. apply filter_In in Hf as [Hf Hne].
      destruct (Hin f Hf) as [E|Hk']; [|assumption].
      unfold of_area in Hne. rewrite <- E, String.eqb_refl in Hne. discriminate.
    + intros a Ha. unfold others. rewrite filter_filter.
      apply filter_ext. intros f. unfold of_area.
      destruct (String.eqb_spec (area_id f) a) as [E|E]; [|now rewrite andb_false_r].
      destruct (String.eqb_spec (area_id f) k) as [E'|E']; [|reflexivity].
      elim Hk. now rewrite <- E', E.
Qed.

Section AlertEngineMore.
Variable localeCompare : string -> string -> comparison.

Lemma recomputeAlerts_rows (features : list PanelRecord) (threshold : number) :
  map row (recomputeAlerts localeCompare (Some features) threshold)
  = flat_map (sorted_rows localeCompare features)
             (first_appearances (map area_id features)).
Proof.
  rewrite recomputeAlerts_flat_map, map_flat_map.
  apply flat_map_ext. intros a. apply enrich_group_rows.
Qed.

Lemma recomputeAlerts_rows_perm (features : list PanelRecord) (threshold : number) :
  Permutation (map row (recomputeAlerts localeCompare (Some features) threshold))
              features.
Proof.
  rewrite recomputeAlerts_rows.
  transitivity (flat_map (fun a => filter (of_area a) features)
                         (first_appearances (map area_id features))).
  - apply Permutation_flat_map_pointwise. intros a _. apply Array_sort_perm.
  - apply partition_by_area_perm; [apply first_appearances_NoDup|].
    intros f Hf. apply first_appearances_In. now apply in_map.
Qed.

(** The engine passes every input record through, once: whatever the
    collation of the host does, the rows of the output are the input
    records rearranged, so that none is dropped, repeated or altered. *)
Theorem recomputeAlerts_keeps_records (features : list PanelRecord)
    (threshold : number) :
  let out := recomputeAlerts localeCompare (Some features) threshold in
  Permutation (map row out) features /\
  length out = length features /\
  (forall r, In r features <-> exists e, In e out /\ row e = r).
Proof.
  intros out. pose proof (recomputeAlerts_rows_perm features threshold) as Hp.
  fold out in Hp. split; [exact Hp|]. split.
  - rewrite <- (length_map row). now apply Permutation_length.
  - intros r. split.
    + intros Hr. apply (Permutation_in _ (Permutation_sym Hp)) in Hr.
      apply in_map_iff in Hr as (e & He & Hin). now exists e.
    + intros (e & Hin & <-). apply (Permutation_in _ Hp). now apply in_map.
Qed.

End AlertEngineMore.

Section AlertEngineMore2.
Variable localeCompare : string -> string -> comparison.

Lemma recomputeAlerts_row_In (features : list PanelRecord) (threshold : number)
    (e : EnrichedRecord) :
  In e (recomputeAlerts localeCompare (Some features) threshold) ->
  In (row e) features.
Proof.
  intros He. apply (Permutation_in _ (recomputeAlerts_rows_perm localeCompare features threshold)).
  now apply in_map.
Qed.

(** The flags of an area depend on the records of that area alone:
    the group of an area in the output is what the engine returns on the
    records of that area taken by themselves. *)
Theorem recomputeAlerts_area_alone (features : list PanelRecord)
    (threshold : number) (a : string) :
  area_group (recomputeAlerts localeCompare (Some features) threshold) a
  = recomputeAlerts localeCompare (Some (filter (of_area a) features)) threshold.
Proof.
  set (own := filter (of_area a) features).
  assert (Hown : area_group (recomputeAlerts localeCompare (Some own) threshold) a
                 = recomputeAlerts localeCompare (Some own) threshold).
  { apply filter_all. intros e He.
    apply recomputeAlerts_row_In in He. apply filter_In in He as [_ He].
    exact He. }
  rewrite <- Hown, !area_group_recomputeAlerts.
  unfold sorted_rows, own. rewrite filter_filter.
  f_equal. f_equal. apply filter_ext. intros f. now rewrite andb_diag.
Qed.

Lemma enrich_from_trend3 (sorted : list PanelRecord) (t1 t2 : number)
    (rest : list PanelRecord) :
  forall t0,
    map alert_trend3 (enrich_from sorted t1 t0 rest)
    = map alert_trend3 (enrich_from sorted t2 t0 rest).
Proof.
  induction rest as [|r rest IH]; intros t0; simpl; [reflexivity|].
  now rewrite IH.
Qed.

(** What the threshold cannot change.  Two runs on the same records
    with different thresholds return the same rows in the same order and
    give every record the same trend flag; only the spike flag and, with
    it, the level may differ. *)
Theorem recomputeAlerts_threshold_frame (features : option (list PanelRecord))
    (t1 t2 : number) :
  let out1 := recomputeAlerts localeCompare features t1 in
  let out2 := recomputeAlerts localeCompare features t2 in
  map row out1 = map row out2 /\
  map alert_trend3 out1 = map alert_trend3 out2 /\
  forall i e1 e2,
    nth_error out1 i = Some e1 -> nth_error out2 i = Some e2 ->
    alert_spike e1 = alert_spike e2 -> e1 = e2.
Proof.
  intros out1 out2.
  assert (Hrow : map row out1 = map row out2).
  { destruct features as [fs|]; [|reflexivity].
    unfold out1, out2. now rewrite !recomputeAlerts_rows. }
  assert (Htrend : map alert_trend3 out1 = map alert_trend3 out2).
  { destruct features as [fs|]; [|reflexivity].
    unfold out1, out2. rewrite !recomputeAlerts_flat_map, !map_flat_map.
    apply flat_map_ext. intros a. apply enrich_from_trend3. }
  split; [exact Hrow|]. split; [exact Htrend|].
  intros i e1 e2 H1 H2 Hs.
  assert (Hr : row e1 = row e2).
  { apply (map_nth_error row) in H1, H2. rewrite Hrow in H1. congruence. }
  assert (Ht : alert_trend3 e1 = alert_trend3 e2).
  { apply (map_nth_error alert_trend3) in H1, H2. rewrite Htrend in H1. congruence. }
  assert (Hl1 : alert_level e1 = alertLevel (alert_spike e1) (alert_trend3 e1)).
  { apply nth_error_In in H1.
    destruct (recomputeAlerts_In localeCompare _ _ _ H1) as (s & t & r & ->). reflexivity. }
  assert (Hl2 : alert_level e2 = alertLevel (alert_spike e2) (alert_trend3 e2)).
  { apply nth_error_In in H2.
    destruct (recomputeAlerts_In localeCompare _ _ _ H2) as (s & t & r & ->). reflexivity. }
  destruct e1, e2; simpl in *. congruence.
Qed.

End AlertEngineMore2.

(** ** Sorting what is sorted, or nearly *)

Section ArraySortMore.
Context {A : Type}.
Variable comparefn : A -> A -> comparison.

Lemma insert_sorted_snoc (x z : A) (l : list A) :
  comparefn x z <> Gt ->
  insert_sorted comparefn x (l ++ [z]) = insert_sorted comparefn x l ++ [z].
Proof.
  intros Hx. induction l as [|y l IH]; simpl.
  - destruct (comparefn x z); try reflexivity. now elim Hx.
  - destruct (comparefn x y); try reflexivity. now rewrite IH.
Qed.

(** An element that no element of the array has to follow stays last. *)
Lemma Array_sort_snoc (l : list A) (z : A) :
  (forall x, In x l -> comparefn x z <> Gt) ->
  Array_sort comparefn (l ++ [z]) = Array_sort comparefn l ++ [z].
Proof.
  induction l as [|x l IH]; intros Hl; simpl; [reflexivity|].
  rewrite IH by (intros y Hy; apply Hl; now right).
  apply insert_sorted_snoc. apply Hl. now left.
Qed.

(** A sorted array is left as it is. *)
Lemma Array_sort_sorted_id (l : list A) :
  StronglySorted (not_after comparefn) l -> Array_sort comparefn l = l.
Proof.
  induction 1 as [|x l Hs IH Hx]; simpl; [reflexivity|].
  rewrite IH. destruct l as [|y l]; [reflexivity|]. simpl.
  inversion Hx as [|? ? Hxy _]; subst. unfold not_after in Hxy.
  destruct (comparefn x y); try reflexivity. now elim Hxy.
Qed.

End ArraySortMore.

(** ** The inner loop looks back only *)

Lemma history_app (sorted later : list PanelRecord) (t : nat) :
  t <= length sorted -> history (sorted ++ later) t = history sorted t.
Proof.
  intros Ht. unfold history, slice.
  set (start := Z.to_nat (Z.max 0 (Z.of_nat t - Z.of_nat BASELINE_WINDOW))).
  assert (Hs : start <= t) by (unfold start; lia).
  rewrite skipn_app, firstn_app, length_skipn.
  replace (t - start - (length sorted - start)) with 0 by lia.
  replace (start - length sorted) with 0 by lia.
  simpl. now rewrite app_nil_r.
Qed.

Lemma riPrev_app (sorted later : list PanelRecord) (t k : nat) :
  t <= length sorted -> 1 <= k -> riPrev (sorted ++ later) t k = riPrev sorted t k.
Proof.
  intros Ht Hk. unfold riPrev. destruct (k <=? t) eqn:E; [|reflexivity].
  apply Nat.leb_le in E. rewrite nth_error_app1 by lia. reflexivity.
Qed.

Lemma enrich_app (sorted later : list PanelRecord) (threshold : number)
    (t : nat) (r : PanelRecord) :
  t <= length sorted ->
  enrich (sorted ++ later) threshold t r = enrich sorted threshold t r.
Proof.
  intros Ht. unfold enrich.
  now rewrite history_app, !riPrev_app by (assumption || lia).
Qed.

Lemma enrich_from_app (sorted later : list PanelRecord) (threshold : number)
    (rest : list PanelRecord) :
  forall t0,
    t0 + length rest <= length sorted ->
    enrich_from (sorted ++ later) threshold t0 rest
    = enrich_from sorted threshold t0 rest.
Proof.
  induction rest as [|r rest IH]; intros t0 Ht; simpl; [reflexivity|].
  simpl in Ht. rewrite enrich_app by lia. rewrite IH by lia. reflexivity.
Qed.

Lemma enrich_from_snoc (sorted : list PanelRecord) (threshold : number)
    (rest : list PanelRecord) (r : PanelRecord) :
  forall t0,
    enrich_from sorted threshold t0 (rest ++ [r])
    = enrich_from sorted threshold t0 rest
      ++ [enrich sorted threshold (t0 + length rest) r].
Proof.
  induction rest as [|x rest IH]; intros t0; simpl.
  - now rewrite Nat.add_0_r.
  - rewrite IH. now rewrite Nat.add_succ_r.
Qed.

Lemma enrich_group_snoc (threshold : number) (sorted : list PanelRecord)
    (r : PanelRecord) :
  enrich_group threshold (sorted ++ [r])
  = enrich_group threshold sorted
    ++ [enrich (sorted ++ [r]) threshold (length sorted) r].
Proof.
  unfold enrich_group. rewrite enrich_from_snoc.
  rewrite enrich_from_app by (simpl; lia). reflexivity.
Qed.

Section AlertEngineMore3.
Variable localeCompare : string -> string -> comparison.

(** A new month never rewrites the past.  When a record is appended whose
    month does not come before any month its area already has, the groups
    of the other areas are returned as before, and the group of its own
    area is the one returned before followed by the new record: no flag of
    an earlier record changes. *)
Theorem recomputeAlerts_new_month (features : list PanelRecord)
    (f : PanelRecord) (threshold : number) :
  (forall r, In r features -> area_id r = area_id f ->
             localeCompare (month r) (month f) <> Gt) ->
  let out := recomputeAlerts localeCompare (Some features) threshold in
  let out' := recomputeAlerts localeCompare (Some (features ++ [f])) threshold in
  (forall a, a <> area_id f -> area_group out' a = area_group out a) /\
  exists e,
    area_group out' (area_id f) = area_group out (area_id f) ++ [e] /\
    row e = f /\
    length out' = S (length out).
Proof.
  intros Hlast out out'. unfold out, out'. split.
  - intros a Ha. rewrite !area_group_recomputeAlerts. unfold sorted_rows.
    rewrite filter_app. simpl. unfold of_area at 2.
    destruct (String.eqb_spec (area_id f) a) as [E|E]; [now elim Ha|].
    now rewrite app_nil_r.
  - set (own := filter (of_area (area_id f)) features).
    exists (enrich (Array_sort (by_month localeCompare) own ++ [f]) threshold
                   (length (Array_sort (by_month localeCompare) own)) f).
    split; [|split; [reflexivity|]].
    + rewrite !area_group_recomputeAlerts. unfold sorted_rows.
      rewrite filter_app. simpl. unfold of_area at 2.
      rewrite String.eqb_refl. fold own.
      rewrite Array_sort_snoc; [apply enrich_group_snoc|].
      intros r Hr. apply filter_In in Hr as [Hr Ha].
      apply Hlast; [assumption|]. now apply String.eqb_eq.
    + rewrite <- !(length_map row).
      rewrite (Permutation_length (recomputeAlerts_rows_perm localeCompare (features ++ [f]) threshold)).
      rewrite (Permutation_length (recomputeAlerts_rows_perm localeCompare features threshold)).
      rewrite length_app. simpl. lia.
Qed.

(** Records that come grouped by area, the months of each area in order,
    come back in the order they were given in. *)
Theorem recomputeAlerts_sorted_input (features : list PanelRecord)
    (threshold : number) :
  features = flat_map (fun a => filter (of_area a) features)
                      (first_appearances (map area_id features)) ->
  (forall a, StronglySorted (not_after (by_month localeCompare))
                            (filter (of_area a) features)) ->
  map row (recomputeAlerts localeCompare (Some features) threshold) = features.
Proof.
  intros Hgrouped Hsorted. rewrite recomputeAlerts_rows.
  rewrite Hgrouped at 3. apply flat_map_ext. intros a.
  apply Array_sort_sorted_id, Hsorted.
Qed.

End AlertEngineMore3.

(** ** Month slices *)

Lemma NoDup_map_filter {A B} (g : A -> B) (p : A -> bool) (l : list A) :
  NoDup (map g l) -> NoDup (map g (filter p l)).
Proof.
  induction l as [|x l IH]; simpl; intros Hnd; [constructor|].
  inversion Hnd as [|? ? Hx Hnd']; subst.
  destruct (p x); simpl; [|now apply IH].
  constructor; [|now apply IH].
  intros Hin. apply Hx. apply in_map_iff in Hin as (y & Ey & Hy).
  apply in_map_iff. exists y. split; [assumption|].
  now apply filter_In in Hy as [Hy _].
Qed.

(** Records that all carry the same key, in an array with no key twice:
    there is at most one. *)
Lemma same_key_at_most_one {A B} (g : A -> B) (k : B) (l : list A) :
  NoDup (map g l) -> (forall x, In x l -> g x = k) -> length l <= 1.
Proof.
  destruct l as [|x [|y l]]; simpl; intros Hnd Hk; try lia.
  inversion Hnd as [|? ? Hx _]; subst. elim Hx. left.
  rewrite (Hk x), (Hk y); auto.
Qed.

Lemma flat_map_singletons {A} (p : A -> bool) (l : list A) :
  flat_map (fun x => if p x then [x] else []) l = filter p l.
Proof.
  induction l as [|x l IH]; simpl; [reflexivity|].
  rewrite IH. now destruct (p x).
Qed.

Section MonthSlices.
Variable localeCompare : string -> string -> comparison.

(** A month slice of the engine's output holds the input records of that
    month, each once; with no month chosen, or no data, it is empty.  The
    three slices of the application are one and the same function of the
    month. *)
Theorem currentFeatures_records (features : list PanelRecord)
    (threshold : number) (m : string) :
  let recomputedFeatures := recomputeAlerts localeCompare (Some features) threshold in
  currentFeatures (Some recomputedFeatures) "" = [] /\
  currentFeatures None m = [] /\
  featuresA (Some recomputedFeatures) m = currentFeatures (Some recomputedFeatures) m /\
  featuresB (Some recomputedFeatures) m = currentFeatures (Some recomputedFeatures) m /\
  (forall e, In e (currentFeatures (Some recomputedFeatures) m) ->
             month (row e) = m /\ In e recomputedFeatures) /\
  (m <> "" ->
   Permutation (map row (currentFeatures (Some recomputedFeatures) m))
               (filter (fun f => String.eqb (month f) m) features)).
Proof.
  intros rf. do 4 (split; [reflexivity|]). split.
  - intros e He. unfold currentFeatures, month_slice in He.
    destruct (String.eqb m ""); [destruct He|].
    apply filter_In in He as [Hin He]. split; [|exact Hin].
    now apply String.eqb_eq.
  - intros Hm. unfold currentFeatures, month_slice.
    apply String.eqb_neq in Hm. rewrite Hm.
    rewrite <- (filter_map_swap (fun f => String.eqb (month f) m) row).
    apply Permutation_filter, recomputeAlerts_rows_perm.
Qed.

(** With at most one record per area and month in the input, a month slice
    has at most one record per area, and the areas come in the order in
    which they first appear in the input. *)
Theorem currentFeatures_one_per_area (features : list PanelRecord)
    (threshold : number) (m : string) :
  NoDup (map (fun f => (area_id f, month f)) features) ->
  m <> "" ->
  let recomputedFeatures := recomputeAlerts localeCompare (Some features) threshold in
  let areas := map (fun e => area_id (row e))
                   (currentFeatures (Some recomputedFeatures) m) in
  NoDup areas /\
  areas = filter (fun a => existsb (fun f => of_area a f && String.eqb (month f) m)
                                   features)
                 (first_appearances (map area_id features)).
Proof.
  intros Huniq Hm rf areas.
  assert (Hareas : areas
            = filter (fun a => existsb (fun f => of_area a f && String.eqb (month f) m)
                                       features)
                     (first_appearances (map area_id features))).
  { unfold areas, currentFeatures, month_slice.
    apply String.eqb_neq in Hm. rewrite Hm.
    rewrite <- (map_map row area_id).
    rewrite <- (filter_map_swap (fun f => String.eqb (month f) m) row).
    unfold rf. rewrite recomputeAlerts_rows, filter_flat_map, map_flat_map.
    rewrite <- flat_map_singletons. apply flat_map_ext. intros a.
    set (at_m := filter (fun f => String.eqb (month f) m)
                        (sorted_rows localeCompare features a)).
    set (own := filter (fun f => of_area a f && String.eqb (month f) m) features).
    assert (Hperm : Permutation at_m own).
    { unfold at_m, own, sorted_rows. rewrite <- filter_filter.
      apply Permutation_filter, Array_sort_perm. }
    assert (Hlen : length own <= 1).
    { apply (same_key_at_most_one (fun f => (area_id f, month f)) (a, m)).
      - now apply NoDup_map_filter.
      - intros f Hf. apply filter_In in Hf as [_ Hf].
        apply andb_true_iff in Hf as [Ha Hmf].
        apply String.eqb_eq in Ha, Hmf. now rewrite Ha, Hmf. }
    assert (Hex : existsb (fun f => of_area a f && String.eqb (month f) m) features
                  = negb (length own =? 0)).
    { unfold own. clear. induction features as [|f fs IH]; simpl; [reflexivity|].
      destruct (of_area a f && String.eqb (month f) m); simpl; [reflexivity|exact IH]. }
    rewrite Hex. rewrite <- (Permutation_length Hperm) in Hlen |- *.
    destruct at_m as [|r [|r' at_m']] eqn:E; simpl in Hlen |- *; try lia; [reflexivity|].
    f_equal. assert (Hr : In r own) by (apply (Permutation_in _ Hperm); now left).
    apply filter_In in Hr as [_ Hr]. apply andb_true_iff in Hr as [Hr _].
    now apply String.eqb_eq. }
  split; [|exact Hareas]. rewrite Hareas.
  apply NoDup_filter, first_appearances_NoDup.
Qed.

End MonthSlices.

(** ** More of the comparison engine *)

Lemma first_appearances_nil (l : list string) :
  first_appearances l = [] -> l = [].
Proof. destruct l; [reflexivity | discriminate]. Qed.

Lemma first_appearances_NoDup_id (l : list string) :
  NoDup l -> first_appearances l = l.
Proof.
  induction 1 as [|x l Hx Hnd IH]; simpl; [reflexivity|].
  rewrite IH. f_equal. apply filter_all. intros y Hy.
  destruct (String.eqb_spec y x) as [->|]; [now elim Hx | reflexivity].
Qed.

Lemma first_appearances_app (l l' : list string) :
  first_appearances (l ++ l')
  = first_appearances l
    ++ filter (fun y => negb (existsb (String.eqb y) l)) (first_appearances l').
Proof.
  induction l as [|x l IH]; simpl.
  - symmetry. now apply filter_all.
  - rewrite IH, filter_app, filter_filter. do 2 f_equal.
    apply filter_ext. intros y. rewrite negb_orb. apply andb_comm.
Qed.

Lemma existsb_first_appearances (y : string) (l : list string) :
  existsb (String.eqb y) (first_appearances l) = existsb (String.eqb y) l.
Proof.
  apply eq_true_iff_eq. rewrite !existsb_eqb_In. apply first_appearances_In.
Qed.

Lemma first_appearances_merge (l l' : list string) :
  first_appearances (first_appearances l ++ first_appearances l')
  = first_appearances (l ++ l').
Proof.
  rewrite !first_appearances_app.
  rewrite !(first_appearances_NoDup_id (first_appearances _))
    by apply first_appearances_NoDup.
  f_equal. apply filter_ext. intros y. now rewrite existsb_first_appearances.
Qed.

Lemma index_keys_none (ks : list string) :
  (forall k, In k ks -> array_index k = None) -> index_keys ks = [].
Proof.
  induction ks as [|k ks IH]; simpl; intros Hk; [reflexivity|].
  rewrite (Hk k (or_introl eq_refl)). apply IH. intros k' Hk'. apply Hk. now right.
Qed.

(** Keys that are no array indices are listed in creation order. *)
Lemma Object_keys_plain {V} (o : JSObject V) :
  (forall k, In k (map fst o) -> array_index k = None) ->
  Object_keys o = map fst o.
Proof.
  intros Hk. unfold Object_keys. rewrite index_keys_none by assumption.
  simpl. apply filter_all. intros k Hin. now rewrite (Hk k Hin).
Qed.

Lemma keys_byArea_plain (rf : list EnrichedRecord) (m : string) :
  (forall f, In f rf -> array_index (area_id (row f)) = None) ->
  Object_keys (byArea rf m)
  = first_appearances
      (map (fun f => area_id (row f))
           (filter (fun f => String.eqb (month (row f)) m) rf)).
Proof.
  intros Hplain.
  assert (Hkeys : map fst (byArea rf m)
                  = first_appearances
                      (map (fun f => area_id (row f))
                           (filter (fun f => String.eqb (month (row f)) m) rf))).
  { unfold byArea. rewrite keys_fromEntries, Set_of_spec, map_map. reflexivity. }
  rewrite Object_keys_plain; [exact Hkeys|].
  intros k Hk. rewrite Hkeys in Hk.
  apply (proj1 (first_appearances_In _ _)) in Hk.
  apply in_map_iff in Hk as (f & <- & Hf). apply Hplain.
  now apply filter_In in Hf as [Hf _].
Qed.

Lemma delta_guard_false (monthA monthB : string) :
  monthA <> "" -> monthB <> "" -> monthA <> monthB ->
  String.eqb monthA "" || String.eqb monthB "" || String.eqb monthA monthB = false.
Proof.
  intros HA HB HAB. apply String.eqb_neq in HA, HB, HAB. now rewrite HA, HB, HAB.
Qed.

Lemma delta_guard_true (monthA monthB : string) :
  monthA = "" \/ monthB = "" \/ monthA = monthB ->
  String.eqb monthA "" || String.eqb monthB "" || String.eqb monthA monthB = true.
Proof.
  intros [-> | [-> | ->]].
  - reflexivity.
  - now rewrite orb_true_r.
  - rewrite String.eqb_refl. now rewrite orb_true_r.
Qed.

Section ComparisonEngineMore.
Variable toFixed4 : number -> number.

(** When the comparison is empty.  It holds no record exactly when a month
    is not chosen, the two months are the same, or no record of the array
    belongs to either month. *)
Theorem deltaFeatures_empty_iff (rf : list EnrichedRecord) (monthA monthB : string) :
  deltaFeatures toFixed4 None monthA monthB = [] /\
  (deltaFeatures toFixed4 (Some rf) monthA monthB = [] <->
   monthA = "" \/ monthB = "" \/ monthA = monthB \/
   forall f, In f rf -> month (row f) <> monthA /\ month (row f) <> monthB).
Proof.
  split; [reflexivity|]. split.
  - intros Hempty.
    destruct (String.eqb_spec monthA "") as [|HA]; [now left|].
    destruct (String.eqb_spec monthB "") as [|HB]; [now right; left|].
    destruct (String.eqb_spec monthA monthB) as [|HAB]; [now right; right; left|].
    right; right; right.
    rewrite deltaFeatures_ids in Hempty by assumption.
    apply map_eq_nil, first_appearances_nil, app_eq_nil in Hempty as [Ha Hb].
    intros f Hf. split; intros Hm.
    + assert (Hin : In (area_id (row f)) (Object_keys (byArea rf monthA)))
        by (apply keys_byArea; now exists f).
      rewrite Ha in Hin. destruct Hin.
    + assert (Hin : In (area_id (row f)) (Object_keys (byArea rf monthB)))
        by (apply keys_byArea; now exists f).
      rewrite Hb in Hin. destruct Hin.
  - intros Hcases. unfold deltaFeatures.
    destruct (String.eqb monthA "" || String.eqb monthB "" || String.eqb monthA monthB)
      eqn:G; [reflexivity|].
    destruct Hcases as [H|[H|[H|Hnone]]];
      try (rewrite delta_guard_true in G by tauto; discriminate).
    assert (Hkeys : forall m, (forall f, In f rf -> month (row f) <> m) ->
                              Object_keys (byArea rf m) = []).
    { intros m Hm. destruct (Object_keys (byArea rf m)) as [|id ks] eqn:E; [reflexivity|].
      assert (Hin : In id (Object_keys (byArea rf m))) by (rewrite E; now left).
      apply keys_byArea in Hin as (f & Hf & Hmf & _). now elim (Hm f Hf). }
    rewrite !Hkeys; [reflexivity | |]; intros f Hf; now apply Hnone.
Qed.

(** Swapping the two months swaps the two sides.  The comparison of B with
    A has a record for the same areas as that of A with B, as many of them,
    and the risk values and theft counts of each area change sides. *)
Theorem deltaFeatures_swap (rf : list EnrichedRecord) (monthA monthB : string) :
  let ab := deltaFeatures toFixed4 (Some rf) monthA monthB in
  let ba := deltaFeatures toFixed4 (Some rf) monthB monthA in
  length ba = length ab /\
  forall d, In d ab ->
    exists d', In d' ba /\
      Delta.area_id d' = Delta.area_id d /\
      Delta.risk_index_a d' = Delta.risk_index_b d /\
      Delta.risk_index_b d' = Delta.risk_index_a d /\
      Delta.theft_count_a d' = Delta.theft_count_b d /\
      Delta.theft_count_b d' = Delta.theft_count_a d.
Proof.
  intros ab ba. unfold ab, ba.
  destruct (String.eqb monthA "" || String.eqb monthB "" || String.eqb monthA monthB)
    eqn:G.
  - assert (Hab : deltaFeatures toFixed4 (Some rf) monthA monthB = [])
      by (unfold deltaFeatures; now rewrite G).
    assert (Hba : deltaFeatures toFixed4 (Some rf) monthB monthA = []).
    { unfold deltaFeatures. rewrite delta_guard_true; [reflexivity|].
      apply orb_true_iff in G as [G|G]; [apply orb_true_iff in G as [G|G]|];
        apply String.eqb_eq in G; auto. }
    rewrite Hab, Hba. split; [reflexivity | intros d []].
  - apply orb_false_iff in G as [G HAB]. apply orb_false_iff in G as [HA HB].
    apply String.eqb_neq in HA, HB, HAB.
    rewrite !deltaFeatures_ids by (assumption || now apply not_eq_sym).
    set (ka := Object_keys (byArea rf monthA)).
    set (kb := Object_keys (byArea rf monthB)).
    assert (Hsame : forall id, In id (first_appearances (ka ++ kb))
                               <-> In id (first_appearances (kb ++ ka))).
    { intros id. rewrite !first_appearances_In, !in_app_iff. tauto. }
    split.
    + rewrite !length_map. apply Permutation_length, NoDup_Permutation;
        try apply first_appearances_NoDup. intros id. symmetry. apply Hsame.
    + intros d Hd. apply in_map_iff in Hd as (id & <- & Hid).
      exists (delta_record toFixed4 (byArea rf monthB) (byArea rf monthA) id).
      split; [|repeat split]. apply in_map. now apply Hsame.
Qed.

(** The order of the comparison.  When no area identifier is the decimal
    rendering of an array index, the records come in the order in which
    their areas first appear in the slice of month A followed by the slice
    of month B. *)
Theorem deltaFeatures_order (rf : list EnrichedRecord) (monthA monthB : string) :
  monthA <> "" -> monthB <> "" -> monthA <> monthB ->
  (forall f, In f rf -> array_index (area_id (row f)) = None) ->
  map Delta.area_id (deltaFeatures toFixed4 (Some rf) monthA monthB)
  = first_appearances
      (map (fun f => area_id (row f))
           (featuresA (Some rf) monthA ++ featuresB (Some rf) monthB)).
Proof.
  intros HA HB HAB Hplain. rewrite deltaFeatures_ids by assumption.
  rewrite map_map. cbn [Delta.area_id delta_record]. rewrite map_id.
  rewrite !keys_byArea_plain by assumption.
  rewrite first_appearances_merge, <- map_app.
  unfold featuresA, featuresB, month_slice.
  apply String.eqb_neq in HA, HB. now rewrite HA, HB.
Qed.

End ComparisonEngineMore.

(** ** The alert badge and the ranking *)

Lemma filter_filter_length {A} (p q : A -> bool) (l : list A) :
  length (filter q (filter p l)) <= length (filter q l).
Proof.
  induction l as [|x l IH]; simpl; [lia|].
  destruct (p x); simpl; destruct (q x); simpl; lia.
Qed.

Lemma NoDup_map_eq {A B} (g : A -> B) (l : list A) (x y : A) :
  NoDup (map g l) -> In x l -> In y l -> g x = g y -> x = y.
Proof.
  induction l as [|z l IH]; simpl; intros Hnd Hx Hy E; [destruct Hx|].
  inversion Hnd as [|? ? Hz Hnd']; subst.
  destruct Hx as [->|Hx], Hy as [->|Hy]; try reflexivity.
  - elim Hz. rewrite E. now apply in_map.
  - elim Hz. rewrite <- E. now apply in_map.
  - now apply IH.
Qed.

Lemma StronglySorted_app_inv {A} (P : A -> A -> Prop) (l l' : list A) :
  StronglySorted P (l ++ l') ->
  StronglySorted P l /\ forall x y, In x l -> In y l' -> P x y.
Proof.
  induction l as [|z l IH]; simpl; intros Hs.
  - split; [constructor | intros x y []].
  - inversion Hs as [|? ? Hs' Hz]; subst. destruct (IH Hs') as [Hl Hll'].
    rewrite Forall_forall in Hz. split.
    + constructor; [assumption|]. apply Forall_forall. intros y Hy.
      apply Hz, in_or_app. now left.
    + intros x y [<-|Hx] Hy; [|now apply Hll'].
      apply Hz, in_or_app. now right.
Qed.

Section BadgeAndRanking.
Context {R : Type} `{Ranked R}.
Variable metric : string.

Lemma rankedTopN_sorted (filterAlertsOnly : bool) (source : list R) :
  let kept := filter (kept_by metric filterAlertsOnly) source in
  let sorted := Array_sort (by_metric_desc metric) kept in
  rankedTopN metric filterAlertsOnly source = firstn 10 sorted /\
  StronglySorted (not_after (by_metric_desc metric)) sorted /\
  (forall f, In f sorted ->
     In f source /\ has_metric metric f = true /\
     passes_alert_filter filterAlertsOnly f = true).
Proof.
  intros kept sorted.
  assert (Hkept : forall f, In f kept ->
            In f source /\ has_metric metric f = true
            /\ passes_alert_filter filterAlertsOnly f = true).
  { intros f Hf. apply filter_In in Hf as [Hin Hk].
    apply andb_true_iff in Hk. tauto. }
  split; [|split].
  - unfold rankedTopN, slice, sorted, kept, kept_by. now rewrite filter_filter.
  - apply Array_sort_sorted, by_metric_desc_consistent.
    intros f Hf. now apply Hkept.
  - intros f Hf. apply Hkept. now apply (proj1 (Array_sort_In _ _ _)) in Hf.
Qed.

(** With "alerts only" switched on, the ranking never lists more records
    than the badge counts, and lists none when the badge counts none. *)
Theorem rankedTopN_within_alertCount (source : list R) :
  length (rankedTopN metric true source) <= Nat.min 10 (alertCount source) /\
  alertCount source <= length source /\
  (alertCount source = 0 -> rankedTopN metric true source = []).
Proof.
  assert (Hlen : length (rankedTopN metric true source)
                 <= Nat.min 10 (alertCount source)).
  { unfold rankedTopN, slice, alertCount. cbn [skipn Nat.sub].
    rewrite length_firstn, Array_sort_length.
    pose proof (filter_filter_length (has_metric metric) (passes_alert_filter true) source)
      as Hle.
    rewrite !(filter_ext (passes_alert_filter true) is_alert) in Hle by reflexivity.
    rewrite (filter_ext (passes_alert_filter true) is_alert) by reflexivity.
    lia. }
  split; [exact Hlen|]. split; [apply filter_length_le|].
  intros H0. rewrite H0 in Hlen. apply length_zero_iff_nil. lia.
Qed.

(** The ranking is a top list.  What was kept and is not returned stands
    behind every returned record: its metric value is not greater than
    theirs.  Up to ten kept records are all returned. *)
Theorem rankedTopN_best (filterAlertsOnly : bool) (source : list R) :
  let kept := filter (kept_by metric filterAlertsOnly) source in
  let result := rankedTopN metric filterAlertsOnly source in
  exists rest,
    Permutation (result ++ rest) kept /\
    (forall f g, In f result -> In g rest -> metric_desc metric f g) /\
    (length kept <= 10 -> rest = []).
Proof.
  intros kept result.
  destruct (rankedTopN_sorted filterAlertsOnly source) as (Hres & Hsorted & Hin).
  fold kept result in Hres. fold kept in Hsorted, Hin.
  set (sorted := Array_sort (by_metric_desc metric) kept) in *.
  exists (skipn 10 sorted). rewrite Hres. split; [|split].
  - rewrite firstn_skipn. apply Array_sort_perm.
  - rewrite <- (firstn_skipn 10 sorted) in Hsorted.
    apply StronglySorted_app_inv in Hsorted as [_ Hbehind].
    intros f g Hf Hg. apply not_after_metric_desc.
    + apply Hin. eapply firstn_In, Hf.
    + apply Hin. rewrite <- (firstn_skipn 10 sorted). apply in_or_app. now right.
    + now apply Hbehind.
  - intros Hlen. apply skipn_all2. unfold sorted. now rewrite Array_sort_length.
Qed.

(** Ranking a ranking changes nothing. *)
Theorem rankedTopN_idempotent (filterAlertsOnly : bool) (source : list R) :
  rankedTopN metric filterAlertsOnly (rankedTopN metric filterAlertsOnly source)
  = rankedTopN metric filterAlertsOnly source.
Proof.
  destruct (rankedTopN_sorted filterAlertsOnly source) as (Hres & Hsorted & Hin).
  set (sorted := Array_sort (by_metric_desc metric)
                   (filter (kept_by metric filterAlertsOnly) source)) in *.
  rewrite Hres. unfold rankedTopN, slice. cbn [skipn Nat.sub].
  rewrite (filter_all (has_metric metric))
    by (intros f Hf; apply Hin; eapply firstn_In, Hf).
  rewrite (filter_all (passes_alert_filter filterAlertsOnly))
    by (intros f Hf; apply Hin; eapply firstn_In, Hf).
  rewrite Array_sort_sorted_id.
  - rewrite firstn_firstn. reflexivity.
  - rewrite <- (firstn_skipn 10 sorted) in Hsorted.
    now apply StronglySorted_app_inv in Hsorted as [Hs _].
Qed.

End BadgeAndRanking.

Section BadgeByMode.
Variable localeCompare : string -> string -> comparison.
Variable toFixed4 : number -> number.

Lemma is_alert_enrich (sorted : list PanelRecord) (threshold : number)
    (t : nat) (r : PanelRecord) :
  is_alert (enrich sorted threshold t r)
  = alert_spike (enrich sorted threshold t r)
    || alert_trend3 (enrich sorted threshold t r).
Proof.
  unfold is_alert. cbn [get_alert_level Ranked_EnrichedRecord].
  unfold enrich. cbn [alert_level alert_spike alert_trend3].
  now destruct (alertSpike _ _ _), (alertTrend3 _ _ _).
Qed.

(** In the single-month mode the badge counts the records of the current
    month that carry a flag, spike or trend. *)
Theorem alertCount_currentFeatures (features : option (list PanelRecord))
    (threshold : number) (m : string) :
  let recomputedFeatures := recomputeAlerts localeCompare features threshold in
  alertCount (currentFeatures (Some recomputedFeatures) m)
  = length (filter (fun e => alert_spike e || alert_trend3 e)
                   (currentFeatures (Some recomputedFeatures) m)).
Proof.
  intros rf. unfold alertCount. f_equal. apply filter_ext_in. intros e He.
  assert (Hin : In e rf).
  { unfold currentFeatures, month_slice in He.
    destruct (String.eqb m ""); [destruct He|].
    now apply filter_In in He as [He _]. }
  destruct (recomputeAlerts_In localeCompare _ _ _ Hin) as (s & t & r & ->).
  apply is_alert_enrich.
Qed.

Lemma is_alert_delta_record (rf : list EnrichedRecord) (monthA monthB id : string) :
  is_alert (delta_record toFixed4 (byArea rf monthA) (byArea rf monthB) id)
  = match record_at rf monthB id with
    | Some r => is_alert r
    | None => false
    end.
Proof.
  unfold is_alert. cbn [get_alert_level Ranked_DeltaRecord Ranked_EnrichedRecord].
  cbn [Delta.alert_level delta_record]. rewrite Get_byArea.
  now destruct (record_at rf monthB id).
Qed.

(** In the comparison mode the badge counts the areas that alert in month
    B, whatever month A is, as long as month B holds each area once. *)
Theorem alertCount_deltaFeatures (rf : list EnrichedRecord) (monthA monthB : string) :
  monthA <> "" -> monthB <> "" -> monthA <> monthB ->
  NoDup (map (fun f => area_id (row f)) (featuresB (Some rf) monthB)) ->
  alertCount (deltaFeatures toFixed4 (Some rf) monthA monthB)
  = alertCount (featuresB (Some rf) monthB).
Proof.
  intros HA HB HAB Huniq. unfold alertCount.
  rewrite deltaFeatures_ids by assumption.
  set (ids := first_appearances (Object_keys (byArea rf monthA)
                                 ++ Object_keys (byArea rf monthB))).
  set (sliceB := featuresB (Some rf) monthB) in *.
  assert (HsliceB : forall f, In f sliceB <-> In f rf /\ month (row f) = monthB).
  { intros f. unfold sliceB, featuresB, month_slice.
    apply String.eqb_neq in HB. rewrite HB, filter_In.
    now rewrite String.eqb_eq. }
  assert (Hrec : forall f, In f sliceB ->
                           record_at rf monthB (area_id (row f)) = Some f).
  { intros f Hf. destruct (record_at rf monthB (area_id (row f))) as [g|] eqn:E.
    - f_equal. unfold record_at in E. apply find_some in E as [Hg Hp].
      apply andb_true_iff in Hp as [Hm Ha]. apply String.eqb_eq in Hm, Ha.
      apply (NoDup_map_eq (fun f => area_id (row f)) sliceB); try assumption.
      apply HsliceB. split; [|assumption]. now apply in_rev.
    - apply record_at_None in E. elim E. exists f.
      apply HsliceB in Hf as [Hf Hm]. now repeat split. }
  rewrite filter_map_swap, length_map.
  rewrite (filter_ext _ (fun id => match record_at rf monthB id with
                                   | Some r => is_alert r
                                   | None => false
                                   end))
    by (intros id; apply is_alert_delta_record).
  rewrite <- (length_map (fun f => area_id (row f)) (filter is_alert sliceB)).
  apply Permutation_length, NoDup_Permutation.
  - apply NoDup_filter, first_appearances_NoDup.
  - now apply NoDup_map_filter.
  - intros id. rewrite filter_In, in_map_iff. split.
    + intros [Hid Halert].
      destruct (record_at rf monthB id) as [r|] eqn:E; [|discriminate].
      unfold record_at in E. apply find_some in E as [Hr Hp].
      apply andb_true_iff in Hp as [Hm Ha]. apply String.eqb_eq in Hm, Ha.
      exists r. split; [assumption|]. apply filter_In. split; [|assumption].
      apply HsliceB. split; [|assumption]. now apply in_rev.
    + intros (f & <- & Hf). apply filter_In in Hf as [Hf Halert].
      rewrite (Hrec f Hf). split; [|assumption].
      unfold ids. apply first_appearances_In, in_or_app. right.
      apply keys_byArea. exists f. apply HsliceB in Hf as [Hf Hm]. now repeat split.
Qed.

(** In the comparison mode the ranking goes by the change of the risk
    index, so that it lists only areas with a record and a risk value in
    both months: an area that is new, gone, or unrated on one side is never
    ranked. *)
Theorem rankedTopN_deltaFeatures (rf : list EnrichedRecord)
    (monthA monthB : string) (filterAlertsOnly : bool) :
  Forall (fun d =>
            exists a b x y,
              record_at rf monthA (Delta.area_id d) = Some a /\
              record_at rf monthB (Delta.area_id d) = Some b /\
              risk_index (row a) = Some x /\ risk_index (row b) = Some y /\
              Delta.delta_risk_index d = Some (toFixed4 (y - x)%float) /\
              Number_isNaN (toFixed4 (y - x)%float) = false)
         (rankedTopN "delta_risk_index" filterAlertsOnly
                     (deltaFeatures toFixed4 (Some rf) monthA monthB)).
Proof.
  apply Forall_forall. intros d Hd.
  destruct (rankedTopN_sorted "delta_risk_index" filterAlertsOnly
              (deltaFeatures toFixed4 (Some rf) monthA monthB))
    as (Hres & _ & Hin).
  rewrite Hres in Hd. apply firstn_In, Hin in Hd as (Hd & Hm & _).
  unfold deltaFeatures in Hd.
  destruct (String.eqb monthA "" || String.eqb monthB "" || String.eqb monthA monthB);
    [destruct Hd|].
  apply in_map_iff in Hd as (id & <- & _).
  unfold has_metric in Hm.
  cbn [get_metric Ranked_DeltaRecord String.eqb Ascii.eqb Bool.eqb] in Hm.
  cbn [Delta.delta_risk_index Delta.area_id delta_record] in Hm |- *.
  rewrite !Get_byArea in Hm |- *.
  destruct (record_at rf monthA id) as [a|]; [|discriminate].
  destruct (record_at rf monthB id) as [b|]; [|destruct (field _ _); discriminate].
  cbn [field] in Hm |- *.
  destruct (risk_index (row a)) as [x|] eqn:Ex; [|discriminate].
  destruct (risk_index (row b)) as [y|] eqn:Ey; [|discriminate].
  exists a, b, x, y. repeat split; try reflexivity; try assumption.
  now apply negb_true_iff.
Qed.

End BadgeByMode.

(** ** The month selectors *)

Lemma indexOf_range (months : list string) (x : string) :
  (-1 <= indexOf months x < Z.of_nat (length months))%Z.
Proof.
  induction months as [|m months IH]; simpl; [lia|].
  destruct (String.eqb m x); [lia|].
  destruct (indexOf months x <? 0)%Z eqn:E; [lia|].
  apply Z.ltb_ge in E. lia.
Qed.

Lemma indexOf_found (months : list string) (x : string) :
  In x months ->
  (0 <= indexOf months x)%Z /\
  nth_error months (Z.to_nat (indexOf months x)) = Some x.
Proof.
  induction months as [|m months IH]; simpl; intros Hx; [destruct Hx|].
  destruct (String.eqb_spec m x) as [->|Hne]; [split; [lia | reflexivity]|].
  destruct Hx as [Hx|Hx]; [now elim Hne|].
  destruct (IH Hx) as [H0 Hnth].
  destruct (indexOf months x <? 0)%Z eqn:E; [apply Z.ltb_lt in E; lia|].
  split; [lia|]. rewrite Z2Nat.inj_add by lia. rewrite Nat.add_comm. exact Hnth.
Qed.

Lemma indexOf_absent (months : list string) (x : string) :
  ~ In x months -> indexOf months x = (-1)%Z.
Proof.
  induction months as [|m months IH]; simpl; intros Hx; [reflexivity|].
  destruct (String.eqb_spec m x) as [->|Hne]; [elim Hx; now left|].
  rewrite IH by tauto. reflexivity.
Qed.

Lemma indexOf_nth (months : list string) :
  NoDup months ->
  forall i x, nth_error months i = Some x -> indexOf months x = Z.of_nat i.
Proof.
  induction 1 as [|m months Hm Hnd IH]; intros i x Hi.
  - destruct i; discriminate.
  - simpl. destruct i as [|i]; simpl in Hi.
    + injection Hi as ->. now rewrite String.eqb_refl.
    + destruct (String.eqb_spec m x) as [->|Hne].
      * elim Hm. eapply nth_error_In, Hi.
      * rewrite (IH i x Hi).
        destruct (Z.of_nat i <? 0)%Z eqn:E; [apply Z.ltb_lt in E; lia | lia].
Qed.

Lemma indexOf_first (months : list string) (x : string) :
  forall j, (Z.of_nat j < indexOf months x)%Z -> nth_error months j <> Some x.
Proof.
  induction months as [|m months IH]; simpl; intros j Hj; [lia|].
  destruct (String.eqb_spec m x) as [->|Hne]; [lia|].
  destruct (indexOf months x <? 0)%Z eqn:E; [lia|].
  destruct j as [|j]; simpl; [congruence|].
  apply IH. lia.
Qed.

(** The thumbs of the two-thumb slider.  With months to choose from, a
    thumb always rests on a tick; on the first tick of its month when the
    month is one of the list, and on the first tick of all otherwise.  When
    no month is listed twice, moving a thumb to a tick and reading its
    position back gives that tick. *)
Theorem idxA_spec (months : list string) :
  (forall m, idxB months m = idxA months m) /\
  (months <> [] -> forall m, idxA months m < length months) /\
  (forall x, In x months ->
     nth_error months (idxA months (Some x)) = Some x /\
     forall j, j < idxA months (Some x) -> nth_error months j <> Some x) /\
  (forall x, ~ In x months -> idxA months (Some x) = 0) /\
  idxA months None = 0 /\
  (NoDup months ->
   forall value s, value < length months ->
     idxA months (Selection.monthA (onChangeA months value s)) = value /\
     idxB months (Selection.monthB (onChangeB months value s)) = value).
Proof.
  split; [reflexivity|]. split; [|split; [|split; [|split; [reflexivity|]]]].
  - intros Hne m. unfold idxA.
    assert (0 < length months) by (destruct months; [now elim Hne | simpl; lia]).
    destruct m as [x|]; [|simpl; lia].
    pose proof (indexOf_range months x). lia.
  - intros x Hx. unfold idxA. destruct (indexOf_found months x Hx) as [H0 Hnth].
    rewrite Z.max_r by lia. split; [exact Hnth|].
    intros j Hj. apply indexOf_first. lia.
  - intros x Hx. unfold idxA. now rewrite indexOf_absent.
  - intros Hnd value s Hv. unfold idxB, idxA, onChangeA, onChangeB. simpl.
    destruct (nth_error months value) as [x|] eqn:E.
    + rewrite (indexOf_nth months Hnd value x E). lia.
    + apply nth_error_None in E. lia.
Qed.

(** Where the month selectors start.  Once a non-empty list of months has
    loaded, the single-month selector and month B stand on the last month
    and month A six months before it, or on the first month when the list
    is shorter than seven; both compared months are months of the list.
    When no month is listed twice they differ unless the list has a single
    month, and the thumbs of the slider stand on their positions.  Without
    months the selection is left as it is. *)
Theorem initialise_months_spec (months : list string) (s : Selection.t) :
  initialise_months None s = s /\
  initialise_months (Some []) s = s /\
  (months <> [] ->
   let s' := initialise_months (Some months) s in
   exists a b,
     Selection.monthA s' = Some a /\ Selection.monthB s' = Some b /\
     In a months /\ In b months /\
     b = last months "" /\
     nth_error months (length months - 7) = Some a /\
     Selection.monthIndex s' < length months /\
     currentMonth (Some months) (Selection.monthIndex s') = b /\
     (NoDup months ->
      (a = b <-> length months = 1) /\
      idxA months (Selection.monthA s') = length months - 7 /\
      idxB months (Selection.monthB s') = length months - 1)).
Proof.
  split; [reflexivity|]. split; [reflexivity|].
  intros Hne s'.
  assert (Hlen : 0 < length months) by (destruct months; [now elim Hne | simpl; lia]).
  assert (HA : Selection.monthA s' = nth_error months (length months - 7)).
  { unfold s', initialise_months. destruct months as [|m ms]; [now elim Hne|].
    cbn [Selection.monthA]. f_equal. lia. }
  assert (HB : Selection.monthB s' = nth_error months (length months - 1)).
  { unfold s', initialise_months. destruct months as [|m ms]; [now elim Hne|].
    reflexivity. }
  assert (HI : Selection.monthIndex s' = length months - 1).
  { unfold s', initialise_months. destruct months as [|m ms]; [now elim Hne|].
    reflexivity. }
  destruct (nth_error months (length months - 7)) as [a|] eqn:Ea;
    [|apply nth_error_None in Ea; lia].
  destruct (nth_error months (length months - 1)) as [b|] eqn:Eb;
    [|apply nth_error_None in Eb; lia].
  assert (Hlast : b = last months "").
  { destruct (exists_last Hne) as (init & z & E). rewrite E in Eb |- *.
    rewrite last_last. rewrite length_app in Eb. simpl in Eb.
    replace (length init + 1 - 1) with (length init) in Eb by lia.
    rewrite nth_error_app2, Nat.sub_diag in Eb by lia. simpl in Eb. congruence. }
  exists a, b. rewrite HA, HB, HI.
  split; [reflexivity|]. split; [reflexivity|].
  split; [eapply nth_error_In, Ea|]. split; [eapply nth_error_In, Eb|].
  split; [exact Hlast|]. split; [reflexivity|]. split; [lia|].
  split; [unfold currentMonth; now rewrite Eb|].
  intros Hnd. split; [|split].
  - split.
    + intros ->. rewrite NoDup_nth_error in Hnd.
      assert (length months - 7 = length months - 1)
        by (apply Hnd; [lia | congruence]).
      lia.
    + intros H1. rewrite H1 in Ea, Eb. simpl in Ea, Eb. congruence.
  - unfold idxA. rewrite (indexOf_nth months Hnd _ a Ea). lia.
  - unfold idxB. rewrite (indexOf_nth months Hnd _ b Eb). lia.
Qed.

(** ** The threshold slider *)

(** The percentage shown is the one chosen.  For every position the slider
    can report, from 10 to 100 and indeed for every whole percentage up to
    100, the threshold stored is that many hundredths and the panel shows
    the same whole number again. *)
Theorem pct_onChange_threshold (value : Z) :
  (0 <= value <= 100)%Z ->
  pct (onChange_threshold value) = of_Z_exact value.
Proof.
  intros Hv.
  assert (Hn : exists n, n <= 100 /\ value = Z.of_nat n)
    by (exists (Z.to_nat value); lia).
  destruct Hn as (n & Hn & ->). clear Hv.
  do 101 (destruct n as [|n]; [vm_compute; reflexivity|]).
  lia.
Qed.

(** ** The scale bar *)

Lemma leb_true_inv (x y : float) :
  PrimFloat.leb x y = true ->
  is_nan x = false /\ is_nan y = false /\ (rank x <= rank y)%Z.
Proof.
  intros Hle.
  assert (Hnan : is_nan x = false /\ is_nan y = false).
  { rewrite !is_nan_Prim2SF. rewrite FloatAxioms.leb_spec in Hle.
    unfold SFleb, SFcompare in Hle.
    destruct (Prim2SF x) as [?|?| |? ? ?], (Prim2SF y) as [?|?| |? ? ?];
      try discriminate; split; reflexivity. }
  destruct Hnan as [Nx Ny]. repeat split; try assumption.
  rewrite (leb_rank x y Nx Ny) in Hle. now apply Z.leb_le.
Qed.

Lemma leb_trans (x y z : float) :
  PrimFloat.leb x y = true -> PrimFloat.leb y z = true -> PrimFloat.leb x z = true.
Proof.
  intros Hxy Hyz.
  destruct (leb_true_inv x y Hxy) as (Nx & _ & Lxy).
  destruct (leb_true_inv y z Hyz) as (_ & Nz & Lyz).
  rewrite (leb_rank x z Nx Nz). apply Z.leb_le. lia.
Qed.

Ltac step_le :=
  match goal with
  | H : PrimFloat.leb ?t ?s = true, G : PrimFloat.leb ?t ?s' = false |- _ =>
      rewrite (leb_trans t s s' H) in G by (vm_compute; reflexivity); discriminate
  | H : PrimFloat.leb ?t ?s = true |- PrimFloat.leb ?t ?s' = true =>
      apply (leb_trans t s s' H); vm_compute; reflexivity
  end.

(** The distance the scale bar shows is one of the eleven round distances:
    the smallest that is not below the target distance, or the largest,
    20 km, when the target lies above them all or is no number.  The label
    is in kilometres exactly when the target is not within 500 m. *)
Theorem niceM_spec (targetM : number) :
  In (niceM targetM) steps /\
  (PrimFloat.leb targetM 20000 = true ->
   PrimFloat.leb targetM (niceM targetM) = true /\
   forall s, In s steps -> PrimFloat.ltb s (niceM targetM) = true ->
             PrimFloat.leb targetM s = false) /\
  (PrimFloat.leb targetM 20000 = false -> niceM targetM = 20000%float) /\
  label_in_km targetM = negb (PrimFloat.leb targetM 500).
Proof.
  unfold label_in_km, niceM, steps. cbn [find].
  destruct (PrimFloat.leb targetM 10) eqn:E1;
  [|destruct (PrimFloat.leb targetM 20) eqn:E2;
  [|destruct (PrimFloat.leb targetM 50) eqn:E3;
  [|destruct (PrimFloat.leb targetM 100) eqn:E4;
  [|destruct (PrimFloat.leb targetM 200) eqn:E5;
  [|destruct (PrimFloat.leb targetM 500) eqn:E6;
  [|destruct (PrimFloat.leb targetM 1000) eqn:E7;
  [|destruct (PrimFloat.leb targetM 2000) eqn:E8;
  [|destruct (PrimFloat.leb targetM 5000) eqn:E9;
  [|destruct (PrimFloat.leb targetM 10000) eqn:E10;
  [|destruct (PrimFloat.leb targetM 20000) eqn:E11]]]]]]]]]].
  all: cbn [nullish nth length Nat.sub].
  all: split; [simpl; tauto|].
  all: split; [intros Hle;
           first [ discriminate
                 | split; [assumption|];
                   intros s Hs Hlt; simpl in Hs;
                   repeat (destruct Hs as [<-|Hs];
                           [first [assumption | vm_compute in Hlt; discriminate]|]);
                   destruct Hs ]
          |].
  all: split; [intros Habs; first [reflexivity | step_le]|].
  all: first [ vm_compute; reflexivity
             | replace (PrimFloat.leb targetM 500) with true by (symmetry; step_le);
               vm_compute; reflexivity ].
Qed.

(** ** The data behind the map *)

Section GeoJSONFacts.
Context {V G : Type}.
Variable ToPropertyKey : option V -> string.

Lemma Get_In (o : JSObject V) (k : string) (v : V) :
  Get o k = Some v -> In (k, v) o.
Proof.
  induction o as [|[k' v'] o IH]; simpl; [discriminate|].
  destruct (String.eqb_spec k' k) as [->|_].
  - intros [= ->]. now left.
  - intros Hg. right. now apply IH.
Qed.

(** An object holds a key once, so that its last entry for a key is its
    first. *)
Lemma find_rev_Get (o : JSObject V) (k : string) :
  NoDup (map fst o) ->
  option_map snd (find (fun kv => String.eqb (fst kv) k) (rev o)) = Get o k.
Proof.
  induction o as [|[k' v'] o IH]; simpl; intros Hnd; [reflexivity|].
  inversion Hnd as [|? ? Hk Hnd']; subst.
  rewrite find_app. simpl.
  destruct (String.eqb_spec k' k) as [->|Hne].
  - destruct (find _ (rev o)) as [[k1 v1]|] eqn:E; [|reflexivity].
    apply find_some in E as [Hin Hk1]. simpl in Hk1.
    apply String.eqb_eq in Hk1. subst k1. elim Hk.
    apply in_rev in Hin. now apply (in_map fst) in Hin.
  - rewrite <- (IH Hnd'). now destruct (find _ (rev o)).
Qed.

Lemma Get_spread (target source : JSObject V) (k : string) :
  NoDup (map fst source) ->
  Get (spread target source) k
  = match Get source k with
    | Some v => Some v
    | None => Get target k
    end.
Proof.
  intros Hnd. unfold spread. rewrite Get_fold, <- (find_rev_Get source k Hnd).
  now destruct (find _ (rev source)) as [[k1 v1]|].
Qed.

(** What the map shows.  Without boundaries there is nothing to show, and
    without records the boundaries are shown as they are.  Otherwise every
    feature of the boundary file is kept, in its place and with its other
    members; its properties are those of the last record of its area laid
    over its own, so that a property the record lacks is kept, and a
    feature whose area has no record keeps its properties as they are. *)
Theorem makeGeoJSON_spec (features : list (Feature V G))
    (rows : list (JSObject V)) :
  Forall (fun r => NoDup (map fst r)) rows ->
  (forall rows' : option (list (JSObject V)),
     makeGeoJSON (G := G) ToPropertyKey None rows' = None) /\
  makeGeoJSON ToPropertyKey (Some features) None = Some features /\
  makeGeoJSON ToPropertyKey (Some features) (Some []) = Some features /\
  exists out,
    makeGeoJSON ToPropertyKey (Some features) (Some rows) = Some out /\
    map geometry out = map geometry features /\
    forall i f f',
      nth_error features i = Some f -> nth_error out i = Some f' ->
      forall k,
        Get (properties f') k
        = match row_of ToPropertyKey rows f with
          | Some r => match Get r k with
                      | Some v => Some v
                      | None => Get (properties f) k
                      end
          | None => Get (properties f) k
          end.
Proof.
  intros Hrows. do 3 (split; [reflexivity|]).
  destruct rows as [|r0 rows'].
  { exists features. split; [reflexivity|]. split; [reflexivity|].
    intros i f f' Hf Hf' k. rewrite Hf in Hf'. injection Hf' as <-.
    reflexivity. }
  set (rows := r0 :: rows') in *.
  set (dataByArea := Object_fromEntries
                       (map (fun f => (ToPropertyKey (Get f "area_id"), f)) rows)).
  set (merge := fun f : Feature V G =>
                  {| properties :=
                       spread (properties f)
                         (Get dataByArea
                              (ToPropertyKey (Get (properties f) "area_id")) ?? []);
                     geometry := geometry f |}).
  exists (map merge features). split; [reflexivity|]. split.
  - rewrite map_map. reflexivity.
  - intros i f f' Hf Hf' k.
    rewrite (map_nth_error merge _ _ Hf) in Hf'. injection Hf' as <-.
    assert (Hdata : Get dataByArea (ToPropertyKey (Get (properties f) "area_id"))
                    = row_of ToPropertyKey rows f).
    { unfold dataByArea, row_of. rewrite Get_fromEntries, <- map_rev, find_map.
      cbn [fst].
      match goal with
      | |- context [find ?p (rev rows)] => now destruct (find p (rev rows))
      end. }
    unfold merge. cbn [properties]. rewrite Hdata.
    destruct (row_of ToPropertyKey rows f) as [r|] eqn:E; cbn [nullish].
    + apply Get_spread. rewrite Forall_forall in Hrows. apply Hrows.
      unfold row_of in E. apply find_some in E as [Hin _]. now apply in_rev.
    + reflexivity.
Qed.

End GeoJSONFacts.

(** * The sample panel *)

(** On the sample, the seventh record of the first borough stands at three
    times the mean of the six before it: the spike flag is set, and the
    equivalence of C1 gives the three conditions back. *)
Lemma recomputeAlerts_spike_example :
  let group := area_group sample_enriched "E09000001" in
  let window := defined_risks (preceding 6 6 (map row group)) in
  nth_error group 6 = Some sample_spike /\
  3 <= length window /\
  exists ri, risk_index (row sample_spike) = Some ri /\
             gt ri (mean window * (1 + 0.5))%float = true.
Proof.
  assert (H : nth_error (area_group sample_enriched "E09000001") 6
              = Some sample_spike) by (vm_compute; reflexivity).
  split; [exact H|].
  exact (proj1 (proj1 (recomputeAlerts_spike_iff String.compare
                         (Some sample_features) 0.5%float "E09000001" 6
                         sample_spike H)) eq_refl).
Defined.

(** On the sample, the third record of the second borough ends a strictly
    rising run of three. *)
Lemma recomputeAlerts_trend3_example :
  let group := area_group sample_enriched "E09000007" in
  nth_error group 2 = Some sample_trend /\
  exists v2 v1 v0,
    risk_at group 0 = Some v2 /\ risk_at group 1 = Some v1 /\
    risk_at group 2 = Some v0 /\
    PrimFloat.ltb v2 v1 = true /\ PrimFloat.ltb v1 v0 = true.
Proof.
  assert (H : nth_error (area_group sample_enriched "E09000007") 2
              = Some sample_trend) by (vm_compute; reflexivity).
  split; [exact H|].
  exact (proj2 (proj1 (proj1 (recomputeAlerts_trend3_iff String.compare
                                (Some sample_features) 0.5%float "E09000007" 2
                                sample_trend H)) eq_refl)).
Defined.

(** On the sample, the first record of the second borough raises nothing. *)
Lemma recomputeAlerts_warm_up_example :
  nth_error (area_group sample_enriched "E09000007") 0 = Some sample_first /\
  alert_spike sample_first = false /\
  alert_trend3 sample_first = false /\ alert_level sample_first = none.
Proof.
  assert (H : nth_error (area_group sample_enriched "E09000007") 0
              = Some sample_first) by (vm_compute; reflexivity).
  split; [exact H|].
  destruct (recomputeAlerts_warm_up String.compare (Some sample_features)
              0.5%float "E09000007" 0 sample_first H) as [Hs Ht].
  split; [apply Hs; lia | apply Ht; lia].
Defined.

(** On the sample the months are consistently ordered and the output has
    the eleven records of the input. *)
Lemma recomputeAlerts_grouped_sorted_example :
  consistent_on String.compare (map month sample_features) /\
  length sample_enriched = length sample_features.
Proof.
  assert (Hc : consistent_on String.compare (map month sample_features))
    by (apply consistentb_sound; vm_compute; reflexivity).
  split; [exact Hc|].
  exact (proj1 (recomputeAlerts_grouped_sorted String.compare sample_features
                  0.5%float Hc)).
Defined.

(** Two calls in a row on a heap that holds the sample. *)
Lemma recomputeAlerts_twice_example :
  points_to [PanelArray sample_features] (Some 0) (Some sample_features) /\
  exists r1 h1 r2 h2,
    recomputeAlerts_run String.compare (Some 0) 0.5%float
                        [PanelArray sample_features] = Some (r1, h1) /\
    points_to h1 (Some 0) (Some sample_features) /\
    recomputeAlerts_run String.compare (Some 0) 0.5%float h1 = Some (r2, h2) /\
    enriched_view h1 r1 = Some sample_enriched /\
    enriched_view h2 r2 = Some sample_enriched /\
    enriched_view h2 r1 = Some sample_enriched.
Proof.
  assert (H : points_to [PanelArray sample_features] (Some 0)
                        (Some sample_features)) by reflexivity.
  split; [exact H|].
  exact (proj2 (recomputeAlerts_deterministic String.compare
                  [PanelArray sample_features] [PanelArray sample_features]
                  (Some 0) (Some 0) (Some sample_features) 0.5%float H H)).
Defined.

(** March against July on the sample: one record per borough. *)
Lemma deltaFeatures_union_example :
  "2024-03" <> "" /\ "2024-07" <> "" /\ "2024-03" <> "2024-07" /\
  NoDup (map Delta.area_id
           (deltaFeatures toFixed4_binary64 (Some sample_enriched)
                          "2024-03" "2024-07")).
Proof.
  assert (HA : "2024-03" <> "") by discriminate.
  assert (HB : "2024-07" <> "") by discriminate.
  assert (HAB : "2024-03" <> "2024-07") by discriminate.
  repeat split; try assumption.
  exact (proj1 (deltaFeatures_union toFixed4_binary64 sample_enriched
                  "2024-03" "2024-07" HA HB HAB)).
Defined.

(** Appending August for the first borough to the sample: its group grows
    by one record and keeps the seven it had. *)
Lemma recomputeAlerts_new_month_example :
  (forall r, In r sample_features -> area_id r = area_id sample_next ->
             String.compare (month r) (month sample_next) <> Gt) /\
  exists e,
    area_group (recomputeAlerts String.compare
                  (Some (sample_features ++ [sample_next])) 0.5%float)
               "E09000001"
    = area_group sample_enriched "E09000001" ++ [e] /\
    row e = sample_next.
Proof.
  assert (H : forall r, In r sample_features -> area_id r = area_id sample_next ->
                        String.compare (month r) (month sample_next) <> Gt).
  { intros r Hr _. simpl in Hr.
    repeat (destruct Hr as [<-|Hr]; [vm_compute; discriminate|]). destruct Hr. }
  split; [exact H|].
  destruct (proj2 (recomputeAlerts_new_month String.compare sample_features
                     sample_next 0.5%float H)) as (e & He & Hrow & _).
  exists e. split; assumption.
Defined.

(** A panel that is grouped and sorted comes back in its own order. *)
Lemma recomputeAlerts_sorted_input_example :
  sample_grouped
  = flat_map (fun a => filter (of_area a) sample_grouped)
             (first_appearances (map area_id sample_grouped)) /\
  (forall a, StronglySorted (not_after (by_month String.compare))
                            (filter (of_area a) sample_grouped)) /\
  map row (recomputeAlerts String.compare (Some sample_grouped) 0.5%float)
  = sample_grouped.
Proof.
  assert (Hg : sample_grouped
               = flat_map (fun a => filter (of_area a) sample_grouped)
                          (first_appearances (map area_id sample_grouped)))
    by (vm_compute; reflexivity).
  assert (Hs : forall a, StronglySorted (not_after (by_month String.compare))
                                        (filter (of_area a) sample_grouped)).
  { intros a. unfold sample_grouped, of_area. cbn [filter city camden sample_record area_id].
    destruct (String.eqb_spec "E09000001" a) as [<-|_];
      [|destruct (String.eqb "E09000007" a)];
      repeat constructor; vm_compute; discriminate. }
  split; [exact Hg|]. split; [exact Hs|].
  exact (recomputeAlerts_sorted_input String.compare sample_grouped 0.5%float Hg Hs).
Defined.

(** The sample has one record per borough and month; its March slice holds
    the two boroughs in the order in which the sample first names them. *)
Lemma currentFeatures_one_per_area_example :
  NoDup (map (fun f => (area_id f, month f)) sample_features) /\
  "2024-03" <> "" /\
  map (fun e => area_id (row e)) (currentFeatures (Some sample_enriched) "2024-03")
  = ["E09000001"; "E09000007"].
Proof.
  assert (Hu : NoDup (map (fun f => (area_id f, month f)) sample_features)).
  { vm_compute. repeat constructor; simpl; intuition discriminate. }
  assert (Hm : "2024-03" <> "") by discriminate.
  split; [exact Hu|]. split; [exact Hm|]. unfold sample_enriched.
  rewrite (proj2 (currentFeatures_one_per_area String.compare sample_features
                    0.5%float "2024-03" Hu Hm)).
  vm_compute. reflexivity.
Defined.

(** March against July on the sample: the first borough, then the second. *)
Lemma deltaFeatures_order_example :
  "2024-03" <> "" /\ "2024-07" <> "" /\ "2024-03" <> "2024-07" /\
  (forall f, In f sample_enriched -> array_index (area_id (row f)) = None) /\
  map Delta.area_id
      (deltaFeatures toFixed4_binary64 (Some sample_enriched) "2024-03" "2024-07")
  = ["E09000001"; "E09000007"].
Proof.
  assert (HA : "2024-03" <> "") by discriminate.
  assert (HB : "2024-07" <> "") by discriminate.
  assert (HAB : "2024-03" <> "2024-07") by discriminate.
  assert (Hplain : forall f, In f sample_enriched ->
                             array_index (area_id (row f)) = None).
  { intros f Hf. apply recomputeAlerts_row_In in Hf. simpl in Hf.
    repeat (destruct Hf as [<-|Hf]; [vm_compute; reflexivity|]). destruct Hf. }
  repeat (split; [assumption|]).
  rewrite (deltaFeatures_order toFixed4_binary64 sample_enriched
             "2024-03" "2024-07" HA HB HAB Hplain).
  vm_compute. reflexivity.
Defined.

(** March against July on the sample: July holds each borough once, and the
    badge counts the one borough that alerts in July. *)
Lemma alertCount_deltaFeatures_example :
  "2024-03" <> "" /\ "2024-07" <> "" /\ "2024-03" <> "2024-07" /\
  NoDup (map (fun f => area_id (row f)) (featuresB (Some sample_enriched) "2024-07")) /\
  alertCount (deltaFeatures toFixed4_binary64 (Some sample_enriched)
                            "2024-03" "2024-07") = 1.
Proof.
  assert (HA : "2024-03" <> "") by discriminate.
  assert (HB : "2024-07" <> "") by discriminate.
  assert (HAB : "2024-03" <> "2024-07") by discriminate.
  assert (Hu : NoDup (map (fun f => area_id (row f))
                          (featuresB (Some sample_enriched) "2024-07"))).
  { vm_compute. repeat constructor; simpl; intuition discriminate. }
  repeat (split; [assumption|]).
  rewrite (alertCount_deltaFeatures toFixed4_binary64 sample_enriched
             "2024-03" "2024-07" HA HB HAB Hu).
  vm_compute. reflexivity.
Defined.

(** The slider at 55: the threshold is 0.55 and the panel shows 55. *)
Lemma pct_onChange_threshold_example :
  (0 <= 55 <= 100)%Z /\ pct (onChange_threshold 55) = 55%float.
Proof.
  assert (H : (0 <= 55 <= 100)%Z) by lia.
  split; [exact H|].
  exact (pct_onChange_threshold 55 H).
Defined.

(** The sample record laid over the sample boundaries: both features are
    kept, and the second one gains the fields of the record. *)
Lemma makeGeoJSON_example :
  Forall (fun r => NoDup (map fst r)) sample_rows /\
  exists out,
    makeGeoJSON sample_key (Some sample_boundaries) (Some sample_rows) = Some out /\
    map geometry out = [1; 7] /\
    map (fun f => Get (properties f) "alert_level") out = [None; Some "watch"].
Proof.
  assert (H : Forall (fun r => NoDup (map fst r)) sample_rows).
  { repeat constructor; simpl; intuition discriminate. }
  split; [exact H|].
  destruct (proj2 (proj2 (proj2 (makeGeoJSON_spec sample_key sample_boundaries
                                   sample_rows H))))
    as (out & Hout & Hgeo & _).
  exists out. split; [exact Hout|]. split; [exact Hgeo|].
  vm_compute in Hout. injection Hout as <-. reflexivity.
Defined.
